(** * FRTOS GCPP: text lines, line framing, observers, pin interrupts, queues

    A shallow embedding of the wrapper classes of the FRTOS GCPP library
    (text.h, pattern.h, support.h, frtos.h) and the properties of their
    natural-language specification.

    Conventions.
    - A fixed-width unsigned integer is a [Z] whose wrap-around is written
      out ([uint8]).
    - A [char *] is the memory it points into, read and written relative
      to the pointer ([cmem]); an index outside the array the pointer was
      taken from denotes the neighbouring bytes, which is what the
      generated code touches.
    - An array of pointers is a list of options ([None] is the NULL
      pointer). *)

From stdpp Require Import base numbers list gmap.

Local Open Scope Z_scope.

(** ** Machine integers and character memory *)

Definition uint8 (z : Z) : Z := z mod 256.

Definition NUL : Z := 0.
Definition CR : Z := 13.
Definition LF : Z := 10.

Definition cmem : Type := Z -> Z.

Definition poke (m : cmem) (i v : Z) : cmem :=
  fun j => if j =? i then v else m j.

(** A string literal: its characters, then zero bytes. *)
Definition cstr (s : list Z) : cmem :=
  fun i => if i <? 0 then NUL else nth (Z.to_nat i) s NUL.

(** [p] points at a terminator-delimited string of [L] characters. *)
Definition cstring_at (p : cmem) (L : Z) : Prop :=
  (forall i, 0 <= i < L -> p i <> NUL) /\ p L = NUL.

(** The C library's [strlen]: the index of the first terminator. *)
Fixpoint strlen_from (fuel : nat) (p : cmem) (i : Z) : option Z :=
  match fuel with
  | O => None
  | S k => if p i =? NUL then Some i else strlen_from k p (i + 1)
  end.

Definition strlen (fuel : nat) (p : cmem) : option Z := strlen_from fuel p 0.

(** Accesses to the character array of a text line, by index. *)
Inductive access : Type :=
  | Rd (i : Z)
  | Wr (i : Z).

Definition index_of (a : access) : Z :=
  match a with Rd i => i | Wr i => i end.

(** ** text.h *)

Module nText.

(** *** cTextLine<N> *)

Record cTextLine : Type := mkTextLine {
  _scLine : cmem;      (* char _scLine[N+1]: the array is the indices 0..N *)
  _ucLength : Z        (* uint8_t *)
}.

Section TextLine.
Variable N : Z.      (* template <uint16_t N> *)

(** Index inside [char _scLine[N+1]]. *)
Definition in_array (i : Z) : Prop := 0 <= i <= N.

(** [cTextLine() : _ucLength(N) { }]: the array keeps whatever the raw
    storage [raw] holds; the 16-bit [N] is narrowed to the 8-bit field. *)
Definition cTextLine_default (raw : cmem) : cTextLine :=
  {| _scLine := raw; _ucLength := uint8 N |}.

(** [for(uint8_t ucI=0;ucI<_ucLength;ucI++) _scLine[ucI]=pcsData[ucI];] *)
Fixpoint setLine_copy (fuel : nat) (pcsData : cmem) (len ucI : Z)
    (line : cmem) : option (cmem * list access) :=
  match fuel with
  | O => None
  | S k =>
      if ucI <? len then
        match setLine_copy k pcsData len (uint8 (ucI + 1))
                (poke line ucI (pcsData ucI)) with
        | Some (line', tr) => Some (line', Wr ucI :: tr)
        | None => None
        end
      else Some (line, [])
  end.

(** [setLine(pcsData, ucLength)], with the indices of [_scLine] it reads
    and writes.  [_ucLength-1] is computed in [int], and so is [N-1] for
    [N >= 1]; only for [N = 0] would a target with a 16-bit [int] compute
    it unsigned, and the properties below take [N >= 1]. *)
Definition setLine_run (x : cTextLine) (pcsData : cmem) (ucLength : Z)
    : option (cTextLine * list access) :=
  let len := if N - 1 <? ucLength then uint8 (N - 1) else ucLength in
  match setLine_copy 256 pcsData len 0 (_scLine x) with
  | None => None
  | Some (line, tr) =>
      if negb (line (len - 1) =? NUL) then
        Some ({| _scLine := poke line len NUL; _ucLength := len |},
              tr ++ [Rd (len - 1); Wr len])
      else
        Some ({| _scLine := line; _ucLength := len |},
              tr ++ [Rd (len - 1)])
  end.

Definition setLine (x : cTextLine) (pcsData : cmem) (ucLength : Z)
    : option cTextLine :=
  fst <$> setLine_run x pcsData ucLength.

Definition setLine_trace (x : cTextLine) (pcsData : cmem) (ucLength : Z)
    : option (list access) :=
  snd <$> setLine_run x pcsData ucLength.

(** [cTextLine(const char *pcsData)]: [setLine(pcsData, strlen(pcsData))]
    on the raw object; the [size_t] is narrowed to [uint8_t]. *)
Definition cTextLine_cstr (fuel : nat) (raw : cTextLine) (pcsData : cmem)
    : option cTextLine :=
  match strlen fuel pcsData with
  | Some l => setLine raw pcsData (uint8 l)
  | None => None
  end.

(** [cTextLine(const char *pcsData, const uint8_t ucLength)]. *)
Definition cTextLine_buf (raw : cTextLine) (pcsData : cmem) (ucLength : Z)
    : option cTextLine :=
  setLine raw pcsData ucLength.

Definition getLine (x : cTextLine) : cmem := _scLine x.
Definition getLineLength (x : cTextLine) : Z := _ucLength x.

(** What the specification says a line built from a source string of
    [L] characters holds. *)
Definition holds_source (x : cTextLine) (pcsData : cmem) (L : Z) : Prop :=
  (L < N ->
     getLineLength x = L /\
     (forall i, 0 <= i < L -> getLine x i = pcsData i) /\
     getLine x L = NUL) /\
  (N <= L ->
     getLineLength x = N - 1 /\
     (forall i, 0 <= i < N - 1 -> getLine x i = pcsData i)).

(** [getLine()] is terminator-delimited inside the array. *)
Definition terminated (x : cTextLine) : Prop :=
  exists i, in_array i /\ getLine x i = NUL.

End TextLine.

(** The length [setLine] stores. *)
Definition stored_length (N ucLength : Z) : Z :=
  if N - 1 <? ucLength then uint8 (N - 1) else ucLength.

(** A raw object: what the storage of a line holds before a constructor
    has run. *)
Definition raw_line (fill below : Z) : cTextLine :=
  {| _scLine := fun i => if i <? 0 then below else fill; _ucLength := 0 |}.

(** *** cTexter<N> *)

(** The two families of targets the library is built for differ in the
    plain [char] type and in the width of [int]. *)
Inductive target : Type :=
  | AVR      (* char is signed, int has 16 bits *)
  | ARM.     (* char is unsigned, int has 32 bits *)

Definition CHAR_MAX (t : target) : Z :=
  match t with AVR => 127 | ARM => 255 end.

(** Conversion of an [int] to plain [char]. *)
Definition to_char (t : target) (z : Z) : Z :=
  match t with
  | AVR => (z + 128) mod 256 - 128
  | ARM => z mod 256
  end.

(** [c >= N] for a plain [char] [c] and the [uint16_t] [N], after the
    usual arithmetic conversions: with a 16-bit [int] both operands become
    [unsigned int]. *)
Definition char_ge (t : target) (c N : Z) : bool :=
  match t with
  | AVR => N <=? c mod 65536
  | ARM => N <=? c
  end.

(** How a read loop stands when its character source has nothing more to
    say: it has returned, or it is still inside [while(1)]. *)
Inductive read_result : Type :=
  | Returned (pscData : cmem) (ucLength : Z) (rest : list (option Z))
      (delays : nat)
  | Waiting (pscData : cmem) (scLast ucLength : Z) (delays : nat).

Inductive write_result : Type :=
  | Finished (out : list Z)
  | Running (out : list Z).

Section Texter.
Variable N : Z.      (* template <uint16_t N> *)

(** [blockingReadLine(pxThis, pscData)].  The character source is the
    list of outcomes of the successive [characterRead] calls ([None]: the
    call returned false).  [ucLength] of [Returned] is the value stored
    into [pxThis->_ucLength]; [delays] counts [characterReadDelay]. *)
Fixpoint blockingReadLine_loop (src : list (option Z)) (pscData : cmem)
    (scLast ucLength : Z) (delays : nat) : read_result :=
  match src with
  | [] => Waiting pscData scLast ucLength delays
  | None :: rest =>
      blockingReadLine_loop rest pscData scLast ucLength (S delays)
  | Some scCurrent :: rest =>
      let ucLength := if N <=? ucLength then 0 else ucLength in
      let pscData := poke pscData ucLength scCurrent in
      let ucLength := uint8 (ucLength + 1) in
      if (scCurrent =? LF) && (scLast =? CR) then
        if 1 <? ucLength then
          Returned (poke pscData ucLength NUL) ucLength rest delays
        else
          blockingReadLine_loop rest pscData scCurrent ucLength (S delays)
      else
        blockingReadLine_loop rest pscData scCurrent ucLength (S delays)
  end.

Definition blockingReadLine (src : list (option Z)) (pscData : cmem)
    : read_result :=
  blockingReadLine_loop src pscData 0 0 0%nat.

(** The line a read completed with, if it completed. *)
Definition read_line (r : read_result) : option (list Z) :=
  match r with
  | Returned pscData ucLength _ _ =>
      Some (pscData <$> seqZ 0 (ucLength + 1))
  | Waiting _ _ _ _ => None
  end.

Variable tgt : target.

(** [blockingWriteLine(pxThis, pscData)]: the characters handed to
    [characterWrite], in order. *)
Fixpoint blockingWriteLine_loop (fuel : nat) (pscData : cmem)
    (ucLength : Z) : write_result :=
  match fuel with
  | O => Running []
  | S k =>
      let scCurrent := pscData ucLength in
      let ucLength := to_char tgt (ucLength + 1) in
      if scCurrent =? NUL then Finished []
      else if char_ge tgt ucLength N then Finished [scCurrent]
      else
        match blockingWriteLine_loop k pscData ucLength with
        | Finished out => Finished (scCurrent :: out)
        | Running out => Running (scCurrent :: out)
        end
  end.

Definition blockingWriteLine (fuel : nat) (pscData : cmem) : write_result :=
  blockingWriteLine_loop fuel pscData 0.

End Texter.

End nText.

(** ** pattern.h *)

Module nPattern.

Record cObserved (Listener : Type) : Type := mkObserved {
  _ulEvent : Z;                           (* uint32_t *)
  _ucListenerCount : Z;                   (* uint8_t *)
  _pxListener : list (option Listener)    (* cObserver* [COBSERVED_LISTENER_MAX] *)
}.
Arguments mkObserved {Listener}.
Arguments _ulEvent {Listener}.
Arguments _ucListenerCount {Listener}.
Arguments _pxListener {Listener}.

(** One invocation of a listener's [update] by [notify]. *)
Record call (Listener : Type) : Type := mkCall {
  at_index : Z;
  callee : Listener;
  accepted : bool
}.
Arguments mkCall {Listener}.
Arguments at_index {Listener}.
Arguments callee {Listener}.
Arguments accepted {Listener}.

Section Observed.
Context {Listener World : Type}.

(** [#define COBSERVED_LISTENER_MAX 6] unless the user defines it. *)
Variable COBSERVED_LISTENER_MAX : Z.

(** The virtual [cObserver::update(pxSender)] of a listener: it sees the
    sender, may change the rest of the program's state, and answers
    whether it accepted the notification. *)
Variable update : Listener -> cObserved Listener -> World -> bool * World.

Definition cObserved_new (ulEvent : Z) : cObserved Listener :=
  {| _ulEvent := ulEvent;
     _ucListenerCount := 0;
     _pxListener := replicate (Z.to_nat COBSERVED_LISTENER_MAX) None |}.

Definition appendObserver (o : cObserved Listener)
    (pxL : option Listener) : cObserved Listener :=
  if _ucListenerCount o <? COBSERVED_LISTENER_MAX then
    {| _ulEvent := _ulEvent o;
       _ucListenerCount := uint8 (_ucListenerCount o + 1);
       _pxListener :=
         <[Z.to_nat (_ucListenerCount o) := pxL]> (_pxListener o) |}
  else o.

(** [for(ucI=0; ucI<_ucListenerCount; ucI++)] of [notify]. *)
Fixpoint notify_loop (fuel : nat) (o : cObserved Listener) (ucI : Z)
    (w : World) : option (World * list (call Listener)) :=
  match fuel with
  | O => None
  | S k =>
      if ucI <? _ucListenerCount o then
        match _pxListener o !! Z.to_nat ucI with
        | Some (Some l) =>
            let '(r, w') := update l o w in
            if r then Some (w', [mkCall ucI l true])
            else
              match notify_loop k o (uint8 (ucI + 1)) w' with
              | Some (w'', cs) => Some (w'', mkCall ucI l false :: cs)
              | None => None
              end
        | _ => notify_loop k o (uint8 (ucI + 1)) w
        end
      else Some (w, [])
  end.

Definition notify (o : cObserved Listener) (w : World)
    : option (World * list (call Listener)) :=
  notify_loop 256 o 0 w.

Definition getEvent (o : cObserved Listener) : Z := _ulEvent o.

(** An observed object after the given registrations, oldest first. *)
Definition registered (ulEvent : Z) (ps : list (option Listener))
    : cObserved Listener :=
  foldl appendObserver (cObserved_new ulEvent) ps.

(** What holds of an observed object after the registrations [ps]. *)
Definition after (ps : list (option Listener)) (o : cObserved Listener)
    : Prop :=
  _ucListenerCount o = Z.min (Z.of_nat (length ps)) COBSERVED_LISTENER_MAX /\
  length (_pxListener o) = Z.to_nat COBSERVED_LISTENER_MAX /\
  forall i,
    Z.of_nat i < Z.min (Z.of_nat (length ps)) COBSERVED_LISTENER_MAX ->
    _pxListener o !! i = ps !! i.

(** The specification's reading of [notify], over the listeners
    themselves: offer the notification to each in registration order,
    numbering them from [j], until one accepts. *)
Fixpoint notify_spec (o : cObserved Listener) (ls : list Listener) (j : Z)
    (w : World) : World * list (call Listener) :=
  match ls with
  | [] => (w, [])
  | l :: rest =>
      let '(r, w') := update l o w in
      if r then (w', [mkCall j l true])
      else
        let '(w'', cs) := notify_spec o rest (j + 1) w' in
        (w'', mkCall j l false :: cs)
  end.

End Observed.

(** A sample population: listeners are numbers, the state of the program
    is the list of listeners that ran so far, and listener 2 accepts. *)
Definition sample_update (l : nat) (o : cObserved nat) (w : list nat)
    : bool * list nat :=
  (Nat.eqb l 2, w ++ [l]).

End nPattern.

(** ** support.h *)

Module nSupport.

Definition CIRQMONITORED_MAX : Z := 24.

Inductive ePINMODE : Type :=
  | ePINMODE_LOW
  | ePINMODE_CHANGE
  | ePINMODE_RISING
  | ePINMODE_FALLING
  | ePINMODE_HIGH.

(** The process-wide state of [cIrqMonitor]: the static [_handler] array
    and the calls made to the board's [attachInterrupt] (pin, number of
    the [pinISR] trampoline, mode). *)
Record monitor (Handler : Type) : Type := mkMonitor {
  _handler : list (option Handler);
  armed : list (Z * Z * ePINMODE)
}.
Arguments mkMonitor {Handler}.
Arguments _handler {Handler}.
Arguments armed {Handler}.

Section IrqMonitor.
Context {Handler : Type}.

(** The static array starts zeroed. *)
Definition monitor_init : monitor Handler :=
  {| _handler := replicate (Z.to_nat CIRQMONITORED_MAX) None; armed := [] |}.

(** [getISRPtr]: cases 1..23, anything else falls to [pinISR0]. *)
Definition getISRPtr (pin : Z) : Z :=
  if (1 <=? pin) && (pin <=? 23) then pin else 0.

(** [attach(pin, handler, mode)]; the slot is only looked at when the pin
    is in range. *)
Definition attach (pin : Z) (handler : Handler) (mode : ePINMODE)
    (m : monitor Handler) : bool * monitor Handler :=
  if pin <? CIRQMONITORED_MAX then
    match _handler m !! Z.to_nat pin with
    | Some None =>
        (true,
         {| _handler := <[Z.to_nat pin := Some handler]> (_handler m);
            armed := armed m ++ [(pin, getISRPtr pin, mode)] |})
    | _ => (false, m)
    end
  else (false, m).

Definition deattach (pin : Z) (m : monitor Handler)
    : bool * monitor Handler :=
  if pin <? CIRQMONITORED_MAX then
    match _handler m !! Z.to_nat pin with
    | Some (Some _) =>
        (true,
         {| _handler := <[Z.to_nat pin := None]> (_handler m);
            armed := armed m |})
    | _ => (false, m)
    end
  else (false, m).

Definition isAttached (pin : Z) (m : monitor Handler) : bool :=
  if pin <? CIRQMONITORED_MAX then
    match _handler m !! Z.to_nat pin with
    | Some (Some _) => true
    | _ => false
    end
  else false.

(** The handler a pin's trampoline would call. *)
Definition handler_of (pin : Z) (m : monitor Handler) : option Handler :=
  mjoin (_handler m !! Z.to_nat pin).

End IrqMonitor.

End nSupport.

(** ** frtos.h *)

Module nFRTOS.

Definition pdTRUE : Z := 1.
Definition pdFALSE : Z := 0.

(** The part of the machine the queue wrappers touch: the kernel's queues
    by handle (head first) and the task's memory, one element per cell. *)
Record machine : Type := mkMachine {
  queues : gmap Z (list Z);
  ram : Z -> Z
}.

(** Modelled from the spec: the scheduler provider's queue primitives,
    which are not part of this repository: [queue-receive(handle,
    outBuffer, timeoutTicks) -> bool] copies the head element to
    [outBuffer] and removes it; [queue-peek] has the same signature and is
    non-destructive.  No other task runs during the call, so an empty
    queue stays empty until the timeout expires. *)
Definition xQueueReceive (xQueue pvBuffer xTicksToWait : Z) (s : machine)
    : Z * machine :=
  match queues s !! xQueue with
  | Some (v :: rest) =>
      (pdTRUE,
       {| queues := <[xQueue := rest]> (queues s);
          ram := poke (ram s) pvBuffer v |})
  | _ => (pdFALSE, s)
  end.

(** Modelled from the spec: see [xQueueReceive]. *)
Definition xQueuePeek (xQueue pvBuffer xTicksToWait : Z) (s : machine)
    : Z * machine :=
  match queues s !! xQueue with
  | Some (v :: rest) =>
      (pdTRUE, {| queues := queues s; ram := poke (ram s) pvBuffer v |})
  | _ => (pdFALSE, s)
  end.

Record cQueue : Type := mkQueue {
  _xSize : Z;          (* UBaseType_t *)
  _xQHandle : Z        (* QueueHandle_t, 0 is NULL *)
}.

(** [QType peek(bool &bReceived, xTicksToWait)] for a pointer-like
    [QType] (the only kind [static_cast<void *>(xData)] accepts).  The
    local [xData] lives at [xData_at] and is not initialised: it holds what
    the memory holds there.  The value of [xData] is what is handed to the
    kernel as destination. *)
Definition peek (q : cQueue) (xTicksToWait : Z) (xData_at : Z) (s : machine)
    : (Z * bool) * machine :=
  let bReceived := false in
  let '(r, s') := xQueuePeek (_xQHandle q) (ram s xData_at) xTicksToWait s in
  let bReceived := if pdTRUE =? r then true else bReceived in
  ((ram s' xData_at, bReceived), s').

(** [bool receive(QType &xData, xTicksToWait)]; [xData_at] is the object
    the reference is bound to. *)
Definition receive (q : cQueue) (xData_at : Z) (xTicksToWait : Z)
    (s : machine) : bool * machine :=
  let bReceived := false in
  let '(r, s') := xQueueReceive (_xQHandle q) xData_at xTicksToWait s in
  let bReceived := if pdTRUE =? r then true else bReceived in
  (bReceived, s').

(** The elements waiting in the queue of [q], head first. *)
Definition contents (q : cQueue) (s : machine) : list Z :=
  default [] (queues s !! _xQHandle q).

End nFRTOS.

(** ** string_helper.h *)

Module cStringHelper.

(** [reverse]'s loop: the exclusive-or swap of [pscStr[ucI]] with
    [pscStr[ucLength-ucI]].  The exclusive or of two chars is a char
    again, so storing it back converts nothing. *)
Fixpoint reverse_loop (fuel : nat) (pscStr : cmem) (ucLength ucI : Z)
    : option cmem :=
  match fuel with
  | O => None
  | S k =>
      if ucI <? Z.shiftr (ucLength + 1) 1 then
        let s1 :=
          poke pscStr ucI
            (Z.lxor (pscStr ucI) (pscStr (ucLength - ucI))) in
        let s2 :=
          poke s1 (ucLength - ucI)
            (Z.lxor (s1 (ucLength - ucI)) (s1 ucI)) in
        let s3 :=
          poke s2 ucI (Z.lxor (s2 ucI) (s2 (ucLength - ucI))) in
        reverse_loop k s3 ucLength (uint8 (ucI + 1))
      else Some pscStr
  end.

(** [reverse(pscStr, ucLength)]: the memory behind the returned pointer. *)
Definition reverse (pscStr : cmem) (ucLength : Z) : option cmem :=
  if ucLength <=? 1 then Some pscStr
  else
    let ucLength := uint8 (ucLength - 1) in
    reverse_loop 256 pscStr ucLength 0.

Definition _scASCII : list Z :=
  [48; 49; 50; 51; 52; 53; 54; 55; 56; 57; 97; 98; 99; 100; 101; 102].

(** Wrap-around of [int32_t]. *)
Definition int32 (z : Z) : Z := (z + 2147483648) mod 4294967296 - 2147483648.

(** The [do ... while ((n /= ucBase) > 0)] of [fromInt]; [%] and [/]
    truncate towards zero.  Returns the memory and the index [i]. *)
Fixpoint fromInt_digits (fuel : nat) (pscStr : cmem) (n ucBase i : Z)
    : option (cmem * Z) :=
  match fuel with
  | O => None
  | S k =>
      let pscStr :=
        poke pscStr i
          (nth (Z.to_nat (Z.land (Z.rem n ucBase) 15)) _scASCII NUL) in
      let i := i + 1 in
      let n := Z.quot n ucBase in
      if 0 <? n then fromInt_digits k pscStr n ucBase i
      else Some (pscStr, i)
  end.

(** [fromInt(pscStr, n, ucBase)].  [-n] is taken in [int32_t]; a zero
    [ucBase] divides by zero and is outside the model. *)
Definition fromInt (fuel : nat) (pscStr : cmem) (n ucBase : Z)
    : option cmem :=
  let sign := n in
  let n := if sign <? 0 then int32 (- n) else n in
  match fromInt_digits fuel pscStr n ucBase 0 with
  | None => None
  | Some (pscStr, i) =>
      let '(pscStr, i) :=
        if sign <? 0 then (poke pscStr i 45, i + 1) else (pscStr, i) in
      let pscStr := poke pscStr i NUL in
      reverse pscStr (uint8 i)
  end.

End cStringHelper.

(** The characters at [p[i]], ..., [p[i+n-1]]. *)
Definition chars_at (p : cmem) (i n : Z) : list Z := p <$> seqZ i n.

(** Reading a number back, the way [strtol] does for a given radix: an
    optional minus sign, then digits [0-9a-f], most significant first. *)
Definition digit_value (c : Z) : Z :=
  if (48 <=? c) && (c <=? 57) then c - 48
  else if (97 <=? c) && (c <=? 102) then c - 87
  else 0.

Fixpoint parse_digits (base : Z) (cs : list Z) (acc : Z) : Z :=
  match cs with
  | [] => acc
  | c :: rest => parse_digits base rest (acc * base + digit_value c)
  end.

Definition parse_int (base : Z) (cs : list Z) : Z :=
  match cs with
  | c :: rest =>
      if c =? 45 then - parse_digits base rest 0
      else parse_digits base cs 0
  | [] => 0
  end.

(** The character [fromInt] stores for the digit [d]. *)
Definition digit_char (d : Z) : Z :=
  nth (Z.to_nat d) cStringHelper._scASCII NUL.

(** The value of a digit string, least significant digit first. *)
Fixpoint value_lsf (base : Z) (ds : list Z) : Z :=
  match ds with
  | [] => 0
  | d :: rest => d + base * value_lsf base rest
  end.

(** The memory behind [pscData] as a read loop leaves it. *)
Definition read_memory (r : nText.read_result) : cmem :=
  match r with
  | nText.Returned pscData _ _ _ => pscData
  | nText.Waiting pscData _ _ _ => pscData
  end.

(** What every round of the read loop keeps: the write index is an 8-bit
    value, the character before it is the last one read, and nothing
    outside [pscData[0..N]] has changed since the call. *)
Definition read_inv (N : Z) (buf pscData : cmem) (scLast ucLength : Z)
    : Prop :=
  0 <= ucLength <= 255 /\
  (1 <= ucLength -> pscData (ucLength - 1) = scLast) /\
  forall j, j < 0 \/ N < j -> pscData j = buf j.

(** The bytes "HELLO\r\n" stored one by one over a buffer of 'U's. *)
Definition cstr_line_80 : cmem :=
  poke (poke (poke (poke (poke (poke (poke (fun _ => 85)
    0 72) 1 69) 2 76) 3 76) 4 79) 5 CR) 6 LF.

(** ** More of pattern.h, support.h and frtos_peripheral.h *)

Section NotifySlots.
Context {Listener World : Type}.
Variable update :
  Listener -> nPattern.cObserved Listener -> World -> bool * World.

(** Offering a notification along an array of listener pointers, numbered
    from [j]: a NULL pointer is passed over, an acceptance ends the walk. *)
Fixpoint notify_slots (o : nPattern.cObserved Listener)
    (slots : list (option Listener)) (j : Z) (w : World)
    : World * list (nPattern.call Listener) :=
  match slots with
  | [] => (w, [])
  | None :: rest => notify_slots o rest (j + 1) w
  | Some l :: rest =>
      let '(r, w') := update l o w in
      if r then (w', [nPattern.mkCall j l true])
      else
        let '(w'', cs) := notify_slots o rest (j + 1) w' in
        (w'', nPattern.mkCall j l false :: cs)
  end.

End NotifySlots.

Section IrqDispatch.
Context {Handler : Type}.

(** [CIRQMONITORED_PIN_ISR_FUNC(pin)]: the calls [pih->isr(pin)] that the
    trampoline [pinISR<pin>] makes, as (handler, argument). *)
Definition pinISR (pin : Z) (m : nSupport.monitor Handler)
    : list (Handler * Z) :=
  match nSupport.handler_of pin m with
  | Some pih => [(pih, pin)]
  | None => []
  end.

(** [testISR(pin)]: [getISRPtr(pin)()]. *)
Definition testISR (pin : Z) (m : nSupport.monitor Handler)
    : list (Handler * Z) :=
  pinISR (nSupport.getISRPtr pin) m.

(** The calls a program makes on the monitor. *)
Inductive irq_op : Type :=
  | op_attach (pin : Z) (handler : Handler) (mode : nSupport.ePINMODE)
  | op_deattach (pin : Z).

Definition irq_pin (op : irq_op) : Z :=
  match op with op_attach pin _ _ => pin | op_deattach pin => pin end.

Definition irq_step (m : nSupport.monitor Handler) (op : irq_op)
    : nSupport.monitor Handler :=
  match op with
  | op_attach pin handler mode => (nSupport.attach pin handler mode m).2
  | op_deattach pin => (nSupport.deattach pin m).2
  end.

Definition irq_run (ops : list irq_op) : nSupport.monitor Handler :=
  foldl irq_step nSupport.monitor_init ops.

End IrqDispatch.

(** [cUARTTX<N>::run], the body of the loop once a line was received:
    [for(uint8_t i=0;i<l;i++) _xSerial.write(pscLine[i]);]; the characters
    written to the serial port, in order. *)
Fixpoint cUARTTX_write_loop (fuel : nat) (pscLine : cmem) (l i : Z)
    : option (list Z) :=
  match fuel with
  | O => None
  | S k =>
      if i <? l then
        match cUARTTX_write_loop k pscLine l (uint8 (i + 1)) with
        | Some out => Some (pscLine i :: out)
        | None => None
        end
      else Some []
  end.

Definition cUARTTX_write (data : nText.cTextLine) : option (list Z) :=
  let l := nText.getLineLength data in
  let pscLine := nText.getLine data in
  cUARTTX_write_loop 256 pscLine l 0.

(** ** Task and queue creation (frtos.h, frtos_peripheral.h) *)

Module nFRTOSPeripheral.

(** A creation request put to the kernel. *)
Inductive creation : Type :=
  | task_request (ulPriority ulStackSize : Z)
  | queue_request (uxQueueLength : Z).

(** Modelled from the spec: the scheduler provider's [create-task(...) ->
    handle|none] and [create-queue(capacity, elementSize) -> handle|none],
    which are not part of this repository.  [grants] are the handles the
    kernel hands out to the coming requests, 0 for a request it cannot
    serve (as it cannot once the list is used up); [requests] records what
    it was asked. *)
Record kernel : Type := mkKernel {
  grants : list Z;
  requests : list creation
}.

(** Modelled from the spec: see [kernel]. *)
Definition grant (k : kernel) (r : creation) : Z * kernel :=
  match grants k with
  | [] => (0, {| grants := []; requests := requests k ++ [r] |})
  | g :: gs => (g, {| grants := gs; requests := requests k ++ [r] |})
  end.

Record cTask : Type := mkTask {
  _xTHandle : Z;       (* TaskHandle_t, 0 is NULL *)
  _bRunning : bool
}.

Definition cTask_isValidHandle (t : cTask) : bool :=
  if _xTHandle t =? 0 then false else true.

(** [cTask::start]: [xTaskCreate(..., &_xTHandle)] writes the handle only
    when a task was created. *)
Definition start (t : cTask) (ulPriority ulStackSize : Z) (k : kernel)
    : cTask * kernel :=
  let '(g, k') := grant k (task_request ulPriority ulStackSize) in
  (if g =? 0 then t else {| _xTHandle := g; _bRunning := _bRunning t |}, k').

Definition cQueue_isValidHandle (q : nFRTOS.cQueue) : bool :=
  if nFRTOS._xQHandle q =? 0 then false else true.

(** [cQueue::create]: [_xQHandle = xQueueCreate(...)]. *)
Definition create (q : nFRTOS.cQueue) (k : kernel)
    : bool * nFRTOS.cQueue * kernel :=
  let '(g, k') := grant k (queue_request (nFRTOS._xSize q)) in
  let q' := {| nFRTOS._xSize := nFRTOS._xSize q; nFRTOS._xQHandle := g |} in
  (cQueue_isValidHandle q', q', k').

(** The task and the queue of a [cUARTTX<N>]. *)
Record cUARTTX : Type := mkUARTTX {
  tx_task : cTask;
  _xTxQueue : nFRTOS.cQueue
}.

(** [cUARTTX<N>::join(priority, stackSize)]. *)
Definition cUARTTX_join (u : cUARTTX) (priority stackSize : Z) (k : kernel)
    : bool * cUARTTX * kernel :=
  if negb (cTask_isValidHandle (tx_task u)) then
    let '(t, k1) := start (tx_task u) priority stackSize k in
    let '(_, q, k2) := create (_xTxQueue u) k1 in
    let u' := {| tx_task := t; _xTxQueue := q |} in
    (cTask_isValidHandle t && cQueue_isValidHandle q, u', k2)
  else
    (cTask_isValidHandle (tx_task u) && cQueue_isValidHandle (_xTxQueue u),
     u, k).

End nFRTOSPeripheral.



(** * Properties *)

Lemma uint8_small z : 0 <= z < 256 -> uint8 z = z.
Proof. intros H. unfold uint8. apply Z.mod_small. lia. Qed.

Lemma poke_eq m i v : poke m i v i = v.
Proof. unfold poke. by rewrite Z.eqb_refl. Qed.

Lemma poke_ne m i v j : j <> i -> poke m i v j = m j.
Proof. intros H. unfold poke. destruct (Z.eqb_spec j i); [done | done]. Qed.

(** Decide the integer comparisons of the goal, then leave the rest to
    linear arithmetic. *)
Ltac zbool :=
  repeat match goal with
    | |- context [?a <=? ?b] => destruct (Z.leb_spec a b)
    | |- context [?a <? ?b] => destruct (Z.ltb_spec a b)
    | |- context [?a =? ?b] => destruct (Z.eqb_spec a b)
    end;
  simpl; try lia; try congruence.

(** A memory that was overwritten from [src] on the indices [lo .. hi-1]. *)
Lemma copied_inside (m' src m : cmem) lo hi :
  (forall j, m' j = if (lo <=? j) && (j <? hi) then src j else m j) ->
  forall i, lo <= i < hi -> m' i = src i.
Proof. intros Hm i Hi. rewrite Hm. zbool. Qed.

Lemma copied_outside (m' src m : cmem) lo hi :
  (forall j, m' j = if (lo <=? j) && (j <? hi) then src j else m j) ->
  forall i, i < lo \/ hi <= i -> m' i = m i.
Proof. intros Hm i Hi. rewrite Hm. zbool. Qed.


(** ** cTextLine<N> *)

Module TextLineFacts.
Import nText.

(** The copy loop of [setLine] writes the indices [ucI .. len-1] once
    each, in order, and nothing else. *)
Lemma setLine_copy_spec fuel pcsData len ucI line :
  0 <= ucI <= len -> len <= 255 -> (Z.to_nat (len - ucI) < fuel)%nat ->
  exists line',
    setLine_copy fuel pcsData len ucI line
      = Some (line', Wr <$> seqZ ucI (len - ucI)) /\
    forall j, line' j
      = if (ucI <=? j) && (j <? len) then pcsData j else line j.
Proof.
  revert ucI line.
  induction fuel as [|k IH]; intros ucI line Hi Hlen Hfuel; [lia|].
  simpl. destruct (Z.ltb_spec ucI len) as [Hlt|Hge].
  - rewrite (uint8_small (ucI + 1)) by lia.
    destruct (IH (ucI + 1) (poke line ucI (pcsData ucI)))
      as (line' & Heq & Hline'); [lia | lia | lia |].
    rewrite Heq. exists line'. split.
    + rewrite (seqZ_cons ucI (len - ucI)) by lia.
      replace (Z.succ ucI) with (ucI + 1) by lia.
      replace (Z.pred (len - ucI)) with (len - (ucI + 1)) by lia.
      by rewrite fmap_cons.
    + intros j. rewrite Hline'. unfold poke. zbool.
  - exists line. split.
    + replace (len - ucI) with 0 by lia. done.
    + intros j. zbool.
Qed.

Lemma stored_length_min N L :
  1 <= N -> 0 <= L <= 255 -> stored_length N L = Z.min L (N - 1).
Proof.
  intros HN HL. unfold stored_length.
  destruct (Z.ltb_spec (N - 1) L); [rewrite uint8_small|]; lia.
Qed.

(** [setLine] always returns; its result in closed form. *)
Lemma setLine_run_spec N x pcsData L :
  1 <= N -> 0 <= L <= 255 ->
  let len := Z.min L (N - 1) in
  exists line,
    (forall j, line j = if (0 <=? j) && (j <? len) then pcsData j
                        else _scLine x j) /\
    setLine_run N x pcsData L =
      if negb (line (len - 1) =? NUL) then
        Some ({| _scLine := poke line len NUL; _ucLength := len |},
              (Wr <$> seqZ 0 len) ++ [Rd (len - 1); Wr len])
      else
        Some ({| _scLine := line; _ucLength := len |},
              (Wr <$> seqZ 0 len) ++ [Rd (len - 1)]).
Proof.
  intros HN HL len. unfold setLine_run.
  fold (stored_length N L). rewrite stored_length_min by lia. fold len.
  destruct (setLine_copy_spec 256 pcsData len 0 (_scLine x))
    as (line & Heq & Hline); [lia | lia | lia |].
  rewrite Heq, Z.sub_0_r. exists line. split; [exact Hline | done].
Qed.

Lemma setLine_length N x pcsData L :
  1 <= N -> 0 <= L <= 255 ->
  exists x', setLine N x pcsData L = Some x' /\
             getLineLength x' = Z.min L (N - 1).
Proof.
  intros HN HL. unfold setLine.
  destruct (setLine_run_spec N x pcsData L HN HL) as (line & _ & ->).
  destruct (negb _); simpl; eauto.
Qed.

(** The characters [setLine] stores are the first ones of the source. *)
Lemma setLine_content N x pcsData L :
  1 <= N -> 0 <= L <= 255 ->
  exists x', setLine N x pcsData L = Some x' /\
    forall i, 0 <= i < Z.min L (N - 1) -> getLine x' i = pcsData i.
Proof.
  intros HN HL. unfold setLine.
  destruct (setLine_run_spec N x pcsData L HN HL) as (line & Hline & ->).
  pose proof (copied_inside _ _ _ _ _ Hline) as Hc.
  destruct (negb _); simpl; eexists; (split; [done|]);
    intros i Hi; unfold getLine; simpl; [rewrite poke_ne by lia|]; auto.
Qed.

(** With at least one character stored, the line ends in a terminator no
    later than at its length, whether [setLine] had to install it or not. *)
Lemma setLine_terminated N x pcsData L :
  1 <= N -> 0 <= L <= 255 -> 1 <= Z.min L (N - 1) ->
  exists x', setLine N x pcsData L = Some x' /\
    (getLine x' (getLineLength x') = NUL \/
     getLine x' (getLineLength x' - 1) = NUL) /\
    terminated N x'.
Proof.
  intros HN HL Hmin. unfold setLine.
  destruct (setLine_run_spec N x pcsData L HN HL) as (line & Hline & ->).
  destruct (Z.eqb_spec (line (Z.min L (N - 1) - 1)) NUL) as [Hz|Hnz]; simpl.
  - eexists; split; [done|]. unfold getLine, getLineLength; simpl.
    split; [by right|].
    exists (Z.min L (N - 1) - 1). split; [unfold in_array; lia | done].
  - eexists; split; [done|]. unfold getLine, getLineLength; simpl.
    rewrite poke_eq. split; [by left|].
    exists (Z.min L (N - 1)). split; [unfold in_array; lia |].
    simpl. apply poke_eq.
Qed.

(** With at least one character stored, every access of [setLine] to
    [_scLine] is inside the array. *)
Lemma setLine_accesses_in_array N x pcsData L :
  1 <= N -> 0 <= L <= 255 -> 1 <= Z.min L (N - 1) ->
  exists tr, setLine_trace N x pcsData L = Some tr /\
             Forall (fun a => in_array N (index_of a)) tr.
Proof.
  intros HN HL Hmin. unfold setLine_trace.
  destruct (setLine_run_spec N x pcsData L HN HL) as (line & _ & ->).
  assert (Forall (fun a => in_array N (index_of a))
            (Wr <$> seqZ 0 (Z.min L (N - 1)))) as Hw.
  { apply Forall_fmap, Forall_forall. intros i Hi.
    apply elem_of_seqZ in Hi. unfold in_array; simpl. lia. }
  destruct (negb _); simpl; eexists; (split; [done|]);
    apply Forall_app; (split; [exact Hw|]);
    repeat constructor; unfold in_array; simpl; lia.
Qed.

Lemma strlen_from_spec fuel p L i :
  cstring_at p L -> 0 <= i <= L -> (Z.to_nat (L - i) < fuel)%nat ->
  strlen_from fuel p i = Some L.
Proof.
  intros [Hnz Hz]. revert i.
  induction fuel as [|k IH]; intros i Hi Hfuel; [lia|].
  simpl. destruct (Z.eqb_spec (p i) NUL) as [Heq|Hne].
  - destruct (decide (i = L)) as [->|Hn]; [done|].
    exfalso. apply (Hnz i); [lia | done].
  - destruct (decide (i = L)) as [->|Hn]; [done|].
    apply IH; lia.
Qed.

Lemma strlen_spec fuel p L :
  cstring_at p L -> 0 <= L -> (Z.to_nat L < fuel)%nat ->
  strlen fuel p = Some L.
Proof.
  intros Hs HL Hfuel. apply strlen_from_spec; [done | lia |].
  by rewrite Z.sub_0_r.
Qed.

(** [setLine] keeps the stored length below [N]. *)
Corollary setLine_length_bound N x pcsData L :
  1 <= N -> 0 <= L <= 255 ->
  exists x', setLine N x pcsData L = Some x' /\ getLineLength x' <= N - 1.
Proof.
  intros HN HL.
  destruct (setLine_length N x pcsData L HN HL) as (x' & Heq & Hlen).
  exists x'. split; [done | lia].
Qed.

(** C3.  The default constructor leaves the stored length at [N], one more
    than the bound [N-1] that [setLine] keeps: the invariant
    "stored length <= N-1" does not hold after default construction. *)
Theorem default_constructor_length N raw :
  1 <= N <= 255 ->
  getLineLength (cTextLine_default N raw) = N /\
  ~ getLineLength (cTextLine_default N raw) <= N - 1.
Proof.
  intros HN. unfold getLineLength, cTextLine_default. simpl.
  rewrite uint8_small by lia. lia.
Qed.

Lemma default_constructor_length_witness :
  1 <= 8 <= 255 /\
  getLineLength (cTextLine_default 8 (fun _ => 85)) = 8 /\
  ~ getLineLength (cTextLine_default 8 (fun _ => 85)) <= 8 - 1.
Proof.
  split; [lia | apply (default_constructor_length 8); lia].
Defined.

(** C10.  When no character is stored (length argument 0, or [N = 1]),
    the terminator check of [setLine] reads [_scLine[-1]], the byte below
    the array. *)
Theorem setLine_empty_reads_below_array N x pcsData L :
  1 <= N -> 0 <= L <= 255 -> Z.min L (N - 1) = 0 ->
  exists tr,
    setLine_trace N x pcsData L = Some tr /\
    Rd (-1) ∈ tr /\
    ~ Forall (fun a => in_array N (index_of a)) tr.
Proof.
  intros HN HL Hmin. unfold setLine_trace.
  destruct (setLine_run_spec N x pcsData L HN HL) as (line & _ & ->).
  rewrite Hmin. simpl.
  destruct (negb _); simpl; eexists; (split; [done|]);
    (split; [constructor|]);
    intros Hall; inversion Hall as [|a l Hbad Hrest];
    unfold in_array in Hbad; simpl in Hbad; lia.
Qed.

Lemma setLine_empty_reads_below_array_witness :
  exists tr,
    setLine_trace 8 (raw_line 85 0) (cstr []) 0 = Some tr /\
    Rd (-1) ∈ tr /\
    ~ Forall (fun a => in_array 8 (index_of a)) tr.
Proof.
  apply (setLine_empty_reads_below_array 8 (raw_line 85 0) (cstr []) 0); lia.
Defined.

(** [setLine] with length 0 on an object whose array holds no terminator
    and whose byte below the array is zero: the stored length is 0, but no
    terminator is installed, so [getLine()] is not terminator-delimited
    inside the array. *)
Lemma setLine_empty_not_terminated N x pcsData :
  1 <= N ->
  _scLine x (-1) = NUL ->
  (forall i, in_array N i -> _scLine x i <> NUL) ->
  exists x',
    setLine N x pcsData 0 = Some x' /\
    getLineLength x' = Z.min 0 (N - 1) /\
    ~ terminated N x'.
Proof.
  intros HN Hbelow Hfull. unfold setLine.
  destruct (setLine_run_spec N x pcsData 0 HN) as (line & Hline & ->); [lia|].
  replace (Z.min 0 (N - 1)) with 0 in * by lia.
  assert (forall j, line j = _scLine x j) as Hsame.
  { intros j. apply (copied_outside _ _ _ _ _ Hline). lia. }
  change (0 - 1) with (-1). rewrite Hsame, Hbelow. simpl.
  eexists; split; [done|]. split; [done|].
  intros (i & Hi & Hz). unfold getLine in Hz; simpl in Hz.
  rewrite Hsame in Hz. by apply (Hfull i).
Qed.

(** C6, as stated, fails when no character is stored: [setLine] with
    length 0 on a fresh [cTextLine<8>] whose array is filled with 'U' and
    whose byte below the array is zero stores length 0 and leaves
    [getLine()] without a terminator. *)
Lemma setLine_empty_leaves_no_terminator :
  exists x',
    setLine 8 (raw_line 85 0) (cstr []) 0 = Some x' /\
    getLineLength x' = Z.min 0 (8 - 1) /\
    ~ terminated 8 x'.
Proof.
  apply (setLine_empty_not_terminated 8 (raw_line 85 0) (cstr [])).
  - lia.
  - reflexivity.
  - intros i [Hi _]. simpl.
    destruct (Z.ltb_spec i 0); [lia | discriminate].
Qed.

(** C6, as amended.  For [N >= 1] and every length argument, [setLine]
    returns with [getLineLength()] equal to [min(L, N-1)], whether or not
    it had to install a terminator; the first [getLineLength()] characters
    of [getLine()] are the source's; and whenever at least one character
    is stored, [getLine()] is terminator-delimited inside the array, the
    terminator being the last stored character or the one installed right
    behind it. *)
Theorem setLine_length_and_terminator N x pcsData L :
  1 <= N -> 0 <= L <= 255 ->
  exists x',
    setLine N x pcsData L = Some x' /\
    getLineLength x' = Z.min L (N - 1) /\
    (forall i, 0 <= i < getLineLength x' -> getLine x' i = pcsData i) /\
    (1 <= getLineLength x' ->
       terminated N x' /\
       (getLine x' (getLineLength x') = NUL \/
        getLine x' (getLineLength x' - 1) = NUL)).
Proof.
  intros HN HL.
  destruct (setLine_length N x pcsData L HN HL) as (x' & Hset & Hlen).
  destruct (setLine_content N x pcsData L HN HL) as (x1 & Hset1 & Hchars).
  rewrite Hset in Hset1. injection Hset1 as <-.
  exists x'. split; [exact Hset|]. split; [exact Hlen|]. split.
  - intros i Hi. apply Hchars. lia.
  - intros Hstored.
    destruct (setLine_terminated N x pcsData L HN HL)
      as (x2 & Hset2 & Hnul & Hterm); [lia|].
    rewrite Hset in Hset2. injection Hset2 as <-. by split.
Qed.

Lemma setLine_length_and_terminator_witness :
  exists x',
    setLine 4 (raw_line 85 0) (cstr [67; 104; 97; 110; 103; 101]) 6
      = Some x' /\
    getLineLength x' = Z.min 6 (4 - 1) /\
    (forall i, 0 <= i < getLineLength x' ->
       getLine x' i = cstr [67; 104; 97; 110; 103; 101] i) /\
    (1 <= getLineLength x' ->
       terminated 4 x' /\
       (getLine x' (getLineLength x') = NUL \/
        getLine x' (getLineLength x' - 1) = NUL)).
Proof.
  apply (setLine_length_and_terminator 4 (raw_line 85 0)
           (cstr [67; 104; 97; 110; 103; 101]) 6); lia.
Defined.

(** Inside the range of the 8-bit length: for [N >= 2] and a source
    string of [L] characters with [1 <= L <= 255], [setLine], the
    two-argument constructor and the one-argument constructor store what
    the specification says: [L] characters and a terminator at [L] when
    [L < N], the first [N-1] characters when [L >= N]. *)
Theorem setLine_from_string N x pcsData L :
  2 <= N -> 1 <= L <= 255 -> cstring_at pcsData L ->
  (exists x', setLine N x pcsData L = Some x' /\
              holds_source N x' pcsData L) /\
  (exists x', cTextLine_buf N x pcsData L = Some x' /\
              holds_source N x' pcsData L) /\
  (forall fuel, (Z.to_nat L < fuel)%nat ->
     exists x', cTextLine_cstr N fuel x pcsData = Some x' /\
                holds_source N x' pcsData L).
Proof.
  intros HN HL Hs.
  assert (exists x', setLine N x pcsData L = Some x' /\
                     holds_source N x' pcsData L) as Hset.
  { unfold setLine.
    destruct (setLine_run_spec N x pcsData L) as (line & Hline & ->);
      [lia | lia |].
    set (len := Z.min L (N - 1)) in *.
    pose proof (copied_inside _ _ _ _ _ Hline) as Hc.
    assert (line (len - 1) <> NUL) as Hlast.
    { rewrite Hc by lia. apply Hs. lia. }
    destruct (Z.eqb_spec (line (len - 1)) NUL) as [?|_]; [done|]. simpl.
    eexists; split; [done|].
    unfold holds_source, getLine, getLineLength; simpl. split.
    - intros Hlt. replace len with L by lia.
      split; [done|]. split; [|apply poke_eq].
      intros i Hi. rewrite poke_ne by lia. apply Hc. lia.
    - intros Hge. replace len with (N - 1) by lia.
      split; [done|].
      intros i Hi. rewrite poke_ne by lia. apply Hc. lia. }
  split; [exact Hset|]. split; [exact Hset|].
  intros fuel Hfuel. unfold cTextLine_cstr.
  rewrite (strlen_spec fuel pcsData L Hs) by lia.
  rewrite uint8_small by lia. exact Hset.
Qed.

Lemma cstring_at_replicate n c :
  c <> NUL -> cstring_at (cstr (replicate n c)) (Z.of_nat n).
Proof.
  intros Hc. unfold cstring_at, cstr. split.
  - intros i Hi. destruct (Z.ltb_spec i 0); [lia|].
    rewrite nth_lookup, lookup_replicate_2 by lia. done.
  - destruct (Z.ltb_spec (Z.of_nat n) 0); [done|].
    rewrite nth_lookup, lookup_ge_None_2; [done|].
    rewrite length_replicate. lia.
Qed.

Lemma setLine_from_string_witness :
  let p := cstr (replicate 3 65) in
  (exists x', setLine 8 (raw_line 85 0) p 3 = Some x' /\
              holds_source 8 x' p 3) /\
  (exists x', cTextLine_buf 8 (raw_line 85 0) p 3 = Some x' /\
              holds_source 8 x' p 3) /\
  (forall fuel, (Z.to_nat 3 < fuel)%nat ->
     exists x', cTextLine_cstr 8 fuel (raw_line 85 0) p = Some x' /\
                holds_source 8 x' p 3).
Proof.
  apply (setLine_from_string 8 (raw_line 85 0) (cstr (replicate 3 65)) 3).
  - lia.
  - lia.
  - apply (cstring_at_replicate 3 65). discriminate.
Defined.

(** C5.  A source string of 257 characters given to the one-argument
    constructor of [cTextLine<10>]: [strlen] is narrowed to the 8-bit
    length parameter of [setLine], so a single character is stored, not
    the first [N-1 = 9] the specification (and the constructor's own
    "truncated as required") promise. *)
Lemma cstr_constructor_narrows_length :
  let p := cstr (replicate 257 65) in
  cstring_at p 257 /\
  (getLineLength <$> cTextLine_cstr 10 300 (raw_line 85 0) p) = Some 1 /\
  ~ (exists x', cTextLine_cstr 10 300 (raw_line 85 0) p = Some x' /\
                holds_source 10 x' p 257).
Proof.
  intros p. split; [apply (cstring_at_replicate 257 65); discriminate|].
  assert ((getLineLength <$> cTextLine_cstr 10 300 (raw_line 85 0) p)
          = Some 1) as Hlen by (vm_compute; reflexivity).
  split; [exact Hlen|].
  intros (x' & Heq & _ & Hlong). rewrite Heq in Hlen. simpl in Hlen.
  destruct Hlong as [Hl _]; [lia|]. injection Hlen as Hlen. lia.
Qed.

End TextLineFacts.

(** ** cTexter<N> *)

Module TexterFacts.
Import nText.

(** Unsuccessful [characterRead] calls only cost a delay each. *)
Lemma blockingReadLine_loop_idle N n src pscData scLast ucLength delays :
  blockingReadLine_loop N (replicate n None ++ src) pscData scLast ucLength
    delays
  = blockingReadLine_loop N src pscData scLast ucLength (n + delays)%nat.
Proof.
  revert delays. induction n as [|n IH]; intros delays; [done|].
  simpl. rewrite IH. f_equal. lia.
Qed.

(** C1, as amended.  For [N >= 2] a source that yields carriage-return
    then line-feed with nothing before them completes the read on that
    pair: two characters are stored, the terminator goes to index 2 and the
    stored length is 2; unsuccessful reads before and between the two
    change nothing.  The guard is tested after the line-feed has been
    counted: in any round that reads a line-feed after a carriage-return,
    the read returns exactly when the line-feed was stored at an index
    from 1 to 254, and goes on when it was stored at index 0 (the write
    index was at [N] or beyond and restarted) or at index 255 (the 8-bit
    counter wraps to 0). *)
Theorem crlf_pair_completes N buf a b rest (p : cmem) ucLength d :
  2 <= N -> 0 <= ucLength <= 255 ->
  (exists q,
     blockingReadLine N
       (replicate a None ++ Some CR :: replicate b None ++ Some LF :: rest)
       buf
     = Returned q 2 rest (a + b + 1)%nat /\
     q 0 = CR /\ q 1 = LF /\ q 2 = NUL) /\
  let idx := if N <=? ucLength then 0 else ucLength in
  blockingReadLine_loop N (Some LF :: rest) p CR ucLength d
  = if (1 <=? idx) && (idx <=? 254) then
      Returned (poke (poke p idx LF) (idx + 1) NUL) (idx + 1) rest d
    else
      blockingReadLine_loop N rest (poke p idx LF) LF
        (if idx =? 255 then 0 else 1) (S d).
Proof.
  intros HN Hlen. split.
  - unfold blockingReadLine.
    rewrite blockingReadLine_loop_idle. simpl.
    destruct (Z.leb_spec N 0) as [?|_]; [lia|].
    rewrite blockingReadLine_loop_idle. simpl.
    change (uint8 (0 + 1)) with 1.
    destruct (Z.leb_spec N 1) as [?|_]; [lia|].
    change (uint8 (1 + 1)) with 2. simpl.
    exists (poke (poke (poke buf 0 CR) 1 LF) 2 NUL).
    split; [f_equal; lia | by vm_compute].
  - intros idx.
    assert (0 <= idx <= 255) as Hidx
      by (unfold idx; destruct (Z.leb_spec N ucLength); lia).
    cbn [blockingReadLine_loop]. fold idx.
    change ((LF =? LF) && (CR =? CR)) with true. cbv iota.
    destruct (decide (idx = 255)) as [H255|Hne].
    + rewrite H255. done.
    + rewrite uint8_small by lia.
      destruct (Z.leb_spec 1 idx), (Z.leb_spec idx 254),
        (Z.ltb_spec 1 (idx + 1)), (Z.eqb_spec idx 255);
        simpl; try lia; try done.
      replace idx with 0 by lia. done.
Qed.

Lemma crlf_pair_completes_witness :
  (exists q,
     blockingReadLine 3
       (replicate 0 None ++ Some CR :: replicate 1 None ++ Some LF :: [])
       (fun _ => 85)
     = Returned q 2 [] (0 + 1 + 1)%nat /\
     q 0 = CR /\ q 1 = LF /\ q 2 = NUL) /\
  let idx := if 3 <=? 3 then 0 else 3 in
  blockingReadLine_loop 3 (Some LF :: []) (fun _ => 85) CR 3 2
  = if (1 <=? idx) && (idx <=? 254) then
      Returned (poke (poke (fun _ => 85) idx LF) (idx + 1) NUL) (idx + 1)
        [] 2
    else
      blockingReadLine_loop 3 [] (poke (fun _ => 85) idx LF) LF
        (if idx =? 255 then 0 else 1) 3.
Proof.
  apply (crlf_pair_completes 3 (fun _ => 85) 0 1 [] (fun _ => 85) 3 2); lia.
Defined.

(** C1, as stated, fails: with [N = 80] the read returns on the pair
    alone, with the line "\r\n" of stored length 2. *)
Lemma crlf_pair_alone_returns :
  read_line (blockingReadLine 80 [Some CR; Some LF] (fun _ => 85))
    = Some [CR; LF; NUL] /\
  ~ (exists p scLast ucLength delays,
       blockingReadLine 80 [Some CR; Some LF] (fun _ => 85)
       = Waiting p scLast ucLength delays).
Proof.
  split; [by vm_compute|].
  intros (p & scLast & ucLength & delays & H). vm_compute in H. discriminate.
Qed.

(** The line "HELLO\r\n" is read back as such, terminated at index 7. *)
Example hello_line_is_read :
  read_line
    (blockingReadLine 80 (Some <$> [72; 69; 76; 76; 79; CR; LF])
       (fun _ => 85))
  = Some [72; 69; 76; 76; 79; CR; LF; NUL].
Proof. by vm_compute. Qed.

(** The guard [ucLength>1] holds back a pair only when its line-feed is
    stored at index 0, that is after the write index wrapped. *)
Example crlf_across_wrap_is_held_back :
  read_line
    (blockingReadLine 3 [Some 65; Some 66; Some CR; Some LF] (fun _ => 85))
  = None.
Proof. by vm_compute. Qed.

(** With [N <= 1] the write index never passes 1 and no read completes. *)
Lemma blockingReadLine_loop_short N src pscData scLast ucLength delays :
  N <= 1 -> 0 <= ucLength <= 1 ->
  read_line (blockingReadLine_loop N src pscData scLast ucLength delays)
  = None.
Proof.
  intros HN. revert pscData scLast ucLength delays.
  induction src as [|[c|] src IH]; intros pscData scLast ucLength delays Hl;
    simpl; [done| |by apply IH].
  assert (uint8 ((if N <=? ucLength then 0 else ucLength) + 1) = 1) as ->.
  { destruct (Z.leb_spec N ucLength); [done|].
    replace ucLength with 0 by lia. done. }
  simpl. destruct (_ && _); apply IH; lia.
Qed.

(** The counter of [blockingWriteLine] stays a small non-negative number
    as long as [N] fits a plain [char]. *)
Lemma to_char_small t z : 0 <= z <= CHAR_MAX t -> to_char t z = z.
Proof.
  destruct t; simpl; intros H.
  - rewrite Z.mod_small; lia.
  - rewrite Z.mod_small; lia.
Qed.

Lemma char_ge_small t c N : 0 <= c <= 255 -> char_ge t c N = (N <=? c).
Proof.
  destruct t; simpl; intros H; [|done]. rewrite Z.mod_small; [done | lia].
Qed.

Lemma blockingWriteLine_loop_spec N t pscData L fuel i :
  1 <= N <= CHAR_MAX t -> cstring_at pscData L ->
  0 <= i <= L -> i < N -> (Z.to_nat (Z.min L N - i) < fuel)%nat ->
  blockingWriteLine_loop N t fuel pscData i
  = Finished (pscData <$> seqZ i (Z.min L N - i)).
Proof.
  intros HN [Hnz Hz]. revert i.
  assert (CHAR_MAX t <= 255) as Hmax by (destruct t; simpl; lia).
  induction fuel as [|k IH]; intros i Hi HiN Hfuel; [lia|].
  simpl. destruct (Z.eqb_spec (pscData i) NUL) as [Heq|Hne].
  - destruct (decide (i = L)) as [->|Hn].
    + replace (Z.min L N - L) with 0 by lia. done.
    + exfalso. apply (Hnz i); [lia | done].
  - destruct (decide (i = L)) as [->|Hn]; [done|].
    rewrite to_char_small by lia. rewrite char_ge_small by lia.
    rewrite (seqZ_cons i) by lia. rewrite fmap_cons.
    replace (Z.succ i) with (i + 1) by lia.
    replace (Z.pred (Z.min L N - i)) with (Z.min L N - (i + 1)) by lia.
    destruct (Z.leb_spec N (i + 1)) as [Hlast|Hmore].
    + replace (Z.min L N - (i + 1)) with 0 by lia. done.
    + rewrite IH by lia. done.
Qed.

(** C4, as amended.  For [1 <= N <= CHAR_MAX] and a terminator-delimited
    source of [L] characters, [blockingWriteLine] returns having handed to
    [characterWrite] exactly the first [min(L, N)] source characters, in
    order: it stops before the terminator or after [N] characters. *)
Theorem blockingWriteLine_writes N t pscData L fuel :
  1 <= N <= CHAR_MAX t -> 0 <= L -> cstring_at pscData L ->
  (Z.to_nat (Z.min L N) < fuel)%nat ->
  blockingWriteLine N t fuel pscData
    = Finished (pscData <$> seqZ 0 (Z.min L N)) /\
  Z.of_nat (length (pscData <$> seqZ 0 (Z.min L N))) <= N.
Proof.
  intros HN HL Hs Hfuel. split.
  - unfold blockingWriteLine.
    rewrite (blockingWriteLine_loop_spec N t pscData L) by (done || lia).
    by rewrite Z.sub_0_r.
  - rewrite length_fmap, length_seqZ. lia.
Qed.

Lemma blockingWriteLine_writes_witness :
  blockingWriteLine 4 AVR 9 (cstr [72; 69; 76; 76; 79; 13; 10])
    = Finished (cstr [72; 69; 76; 76; 79; 13; 10] <$> seqZ 0 (Z.min 7 4)) /\
  Z.of_nat (length (cstr [72; 69; 76; 76; 79; 13; 10]
                      <$> seqZ 0 (Z.min 7 4))) <= 4.
Proof.
  apply (blockingWriteLine_writes 4 AVR (cstr [72; 69; 76; 76; 79; 13; 10]) 7).
  - simpl. lia.
  - lia.
  - split; [|reflexivity].
    intros i Hi.
    assert (i = 0 \/ i = 1 \/ i = 2 \/ i = 3 \/ i = 4 \/ i = 5 \/ i = 6)
      as Hcase by lia.
    destruct Hcase as [->|[->|[->|[->|[->|[->| ->]]]]]]; discriminate.
  - simpl. lia.
Defined.

(** C4, as stated, fails for [N = 0]: the bound is tested after the
    write, so one character is written, on either target. *)
Lemma zero_bound_writes_one :
  blockingWriteLine 0 ARM 5 (cstr [65; 66]) = Finished [65] /\
  blockingWriteLine 0 AVR 5 (cstr [65; 66]) = Finished [65] /\
  ~ Z.of_nat (length [65]) <= 0.
Proof. split; [done|]. split; [done|]. simpl. lia. Qed.

(** Above [CHAR_MAX] the counter wraps before it reaches [N].  With an
    unsigned [char] it restarts at index 0 and the loop goes on writing:
    400 characters after 400 rounds for [N = 300]. *)
Example long_bound_unsigned_char_keeps_writing :
  blockingWriteLine 300 ARM 400 (cstr (replicate 300 65))
  = Running (replicate 400 65).
Proof. by vm_compute. Qed.

(** With a signed [char] and a 16-bit [int] the wrapped counter compares
    as a large unsigned number and the loop stops after 128 characters,
    short of both the terminator and [N]. *)
Example long_bound_signed_char_stops_early :
  blockingWriteLine 200 AVR 400 (cstr (replicate 200 65))
  = Finished (replicate 128 65).
Proof. by vm_compute. Qed.

End TexterFacts.

(** ** cObserved *)

Module ObservedFacts.
Import nPattern.

Section Registration.
Context {Listener : Type}.
Variable cap : Z.
Hypothesis cap_fits : 0 <= cap <= 255.

Lemma after_new ev : after (Listener:=Listener) cap [] (cObserved_new cap ev).
Proof.
  unfold after, cObserved_new; simpl.
  split; [lia|]. split; [by rewrite length_replicate|].
  intros i Hi. lia.
Qed.

Lemma after_append (ps : list (option Listener)) (o : cObserved Listener)
    (p : option Listener) :
  after cap ps o -> after cap (ps ++ [p]) (appendObserver cap o p).
Proof.
  intros (Hcount & Hlen & Hslots). unfold appendObserver, after.
  rewrite length_app. simpl.
  destruct (Z.ltb_spec (_ucListenerCount o) cap) as [Hroom|Hfull]; simpl.
  - assert (_ucListenerCount o = Z.of_nat (length ps)) as Hc by lia.
    rewrite Hc, Nat2Z.id.
    split; [rewrite uint8_small; lia|].
    split; [by rewrite length_insert|].
    intros i Hi. destruct (decide (i = length ps)) as [->|Hne].
    + rewrite list_lookup_insert_eq by lia.
      by rewrite lookup_app_r, Nat.sub_diag by lia.
    + rewrite list_lookup_insert_ne by lia.
      rewrite lookup_app_l by lia. apply Hslots. lia.
  - split; [lia|]. split; [done|].
    intros i Hi. rewrite lookup_app_l by lia. apply Hslots. lia.
Qed.

Lemma after_registered ev (ps : list (option Listener)) :
  after cap ps (registered cap ev ps).
Proof.
  unfold registered.
  induction ps as [|p ps IH] using rev_ind; [apply after_new|].
  rewrite foldl_app. simpl. by apply after_append.
Qed.

End Registration.

(** C8.  After any sequence of [appendObserver] calls the listener count
    is the number of calls, capped at the capacity; once the capacity is
    reached a further call changes nothing at all; and every listener
    registered within the capacity is, and stays, at the position of its
    registration. *)
Theorem appendObserver_capped {Listener : Type} (cap ev : Z)
    (ps : list (option Listener)) (p : option Listener) :
  0 <= cap <= 255 ->
  let o := registered cap ev ps in
  _ucListenerCount o = Z.min (Z.of_nat (length ps)) cap /\
  _ucListenerCount o <= cap /\
  (cap <= Z.of_nat (length ps) -> appendObserver cap o p = o) /\
  (forall i, (i < length ps)%nat -> Z.of_nat i < cap ->
     _pxListener o !! i = ps !! i /\
     _pxListener (appendObserver cap o p) !! i = ps !! i).
Proof.
  intros Hcap o.
  destruct (after_registered cap Hcap ev ps) as (Hcount & Hlen & Hslots).
  destruct (after_append cap Hcap ps o p) as (_ & _ & Hslots').
  { by apply after_registered. }
  fold o in Hcount, Hslots.
  split; [done|]. split; [lia|]. split.
  - intros Hfull. unfold appendObserver.
    destruct (Z.ltb_spec (_ucListenerCount o) cap); [lia | done].
  - intros i Hi Hic. split; [apply Hslots; lia|].
    rewrite Hslots'; [by rewrite lookup_app_l by lia|].
    rewrite length_app. simpl. lia.
Qed.

Lemma appendObserver_capped_witness :
  let ps := [Some 1; Some 2; Some 3; Some 4; Some 5; Some 6; Some 7]%nat in
  let o := registered 6 0 ps in
  _ucListenerCount o = Z.min (Z.of_nat (length ps)) 6 /\
  _ucListenerCount o <= 6 /\
  (6 <= Z.of_nat (length ps) -> appendObserver 6 o (Some 8%nat) = o) /\
  (forall i, (i < length ps)%nat -> Z.of_nat i < 6 ->
     _pxListener o !! i = ps !! i /\
     _pxListener (appendObserver 6 o (Some 8%nat)) !! i = ps !! i).
Proof.
  apply (appendObserver_capped 6 0
           [Some 1; Some 2; Some 3; Some 4; Some 5; Some 6; Some 7]%nat
           (Some 8%nat)).
  lia.
Defined.

Section Notify.
Context {Listener World : Type}.
Variable update : Listener -> cObserved Listener -> World -> bool * World.
Variable cap : Z.
Hypothesis cap_fits : 0 <= cap <= 255.

(** On an object holding the listeners [ls], the loop of [notify] from
    position [length pre] on does what the specification says for the
    listeners still to come. *)
Lemma notify_loop_spec o ls suf pre fuel w :
  after cap (Some <$> ls) o -> Z.of_nat (length ls) <= cap ->
  pre ++ suf = ls -> (length suf < fuel)%nat ->
  notify_loop update fuel o (Z.of_nat (length pre)) w
  = Some (notify_spec update o suf (Z.of_nat (length pre)) w).
Proof.
  intros (Hcount & _ & Hslots) Hk. rewrite length_fmap in Hcount, Hslots.
  revert pre fuel w.
  induction suf as [|l rest IH]; intros pre fuel w Hls Hfuel;
    (destruct fuel as [|k]; [simpl in Hfuel; lia|]); simpl.
  - rewrite app_nil_r in Hls. subst pre.
    destruct (Z.ltb_spec (Z.of_nat (length ls)) (_ucListenerCount o));
      [lia | done].
  - assert (length ls = length pre + S (length rest))%nat as Hlen.
    { rewrite <- Hls, length_app. done. }
    destruct (Z.ltb_spec (Z.of_nat (length pre)) (_ucListenerCount o));
      [|lia].
    rewrite Nat2Z.id, Hslots by lia.
    rewrite list_lookup_fmap, <- Hls, list_lookup_middle by done. simpl.
    destruct (update l o w) as [[|] w']; [done|].
    rewrite uint8_small by lia.
    replace (Z.of_nat (length pre) + 1)
      with (Z.of_nat (length (pre ++ [l])))
      by (rewrite length_app; simpl; lia).
    rewrite (IH (pre ++ [l]) k w');
      [by destruct (notify_spec _ _ _ _ _)| |simpl in Hfuel; lia].
    by rewrite <- app_assoc.
Qed.

(** The calls the specification's reading makes: one per listener, in
    order, each numbered by its position, and none after an acceptance. *)
Lemma notify_spec_log o ls j w :
  let cs := (notify_spec update o ls j w).2 in
  (forall i c, cs !! i = Some c ->
     at_index c = j + Z.of_nat i /\ ls !! i = Some (callee c)) /\
  (forall i c, cs !! i = Some c -> accepted c = true -> S i = length cs) /\
  ((forall c, c ∈ cs -> accepted c = false) -> length cs = length ls) /\
  (length cs <= length ls)%nat.
Proof.
  revert j w. induction ls as [|l rest IH]; intros j w; simpl.
  - split; [intros i c Hc; by rewrite lookup_nil in Hc|].
    split; [intros i c Hc; by rewrite lookup_nil in Hc|]. done.
  - destruct (update l o w) as [[|] w']; simpl.
    + split; [|split; [|split; [|lia]]].
      * intros [|i] c Hc; simplify_eq/=. split; [lia | done].
      * intros [|i] c Hc _; simplify_eq/=. done.
      * intros Hall. specialize (Hall (mkCall j l true)).
        simpl in Hall. discriminate Hall. constructor.
    + specialize (IH (j + 1) w').
      destruct (notify_spec update o rest (j + 1) w') as [w'' cs].
      simpl in *. destruct IH as (Ha & Hb & Hc & Hd).
      split; [|split; [|split; [|lia]]].
      * intros [|i] c Hi; simplify_eq/=; [split; [lia | done]|].
        destruct (Ha i c Hi) as [-> ->]. split; [lia | done].
      * intros [|i] c Hi Hacc; simplify_eq/=.
        f_equal. by apply (Hb i c).
      * intros Hall. f_equal. apply Hc.
        intros c Hin. apply Hall. by constructor.
Qed.

End Notify.

(** C7.  On an observed object with the listeners [ls] registered,
    [notify] returns, and the calls to [update] it made are: the [j]-th
    call goes to the [j]-th registered listener (registration order, each
    at most once); a call that returned true is the last call; and if no
    call returned true, there are as many calls as listeners. *)
Theorem notify_chain {Listener World : Type}
    (update : Listener -> cObserved Listener -> World -> bool * World)
    (cap ev : Z) (ls : list Listener) (w : World) :
  0 <= cap <= 255 -> Z.of_nat (length ls) <= cap ->
  let o := registered cap ev (Some <$> ls) in
  exists w' cs,
    notify update o w = Some (w', cs) /\
    (w', cs) = notify_spec update o ls 0 w /\
    (forall j c, cs !! j = Some c ->
       at_index c = Z.of_nat j /\ ls !! j = Some (callee c)) /\
    (forall j c, cs !! j = Some c -> accepted c = true -> S j = length cs) /\
    ((forall c, c ∈ cs -> accepted c = false) -> length cs = length ls) /\
    (length cs <= length ls)%nat.
Proof.
  intros Hcap Hk o.
  pose proof (notify_loop_spec update cap Hcap o ls ls [] 256 w) as Hrun.
  change (Z.of_nat (length (@nil Listener))) with 0 in Hrun.
  unfold notify. rewrite Hrun; [..|done|lia].
  - pose proof (notify_spec_log update o ls 0 w) as Hlog.
    destruct (notify_spec update o ls 0 w) as [w' cs]. simpl in Hlog.
    exists w', cs. split; [done|]. split; [done|]. exact Hlog.
  - apply after_registered. done.
  - done.
Qed.

Lemma notify_chain_witness :
  let ls := [1; 2; 3]%nat in
  let o := registered 6 0 (Some <$> ls) in
  exists w' cs,
    notify sample_update o [] = Some (w', cs) /\
    (w', cs) = notify_spec sample_update o ls 0 [] /\
    (forall j c, cs !! j = Some c ->
       at_index c = Z.of_nat j /\ ls !! j = Some (callee c)) /\
    (forall j c, cs !! j = Some c -> accepted c = true -> S j = length cs) /\
    ((forall c, c ∈ cs -> accepted c = false) -> length cs = length ls) /\
    (length cs <= length ls)%nat.
Proof.
  apply (notify_chain sample_update 6 0 [1; 2; 3]%nat []); simpl; lia.
Defined.

(** The sample run: listener 1 declines, listener 2 accepts, listener 3 is
    never called. *)
Example notify_sample_run :
  notify sample_update (registered 6 0 [Some 1; Some 2; Some 3]%nat) []
  = Some ([1; 2]%nat, [mkCall 0 1%nat false; mkCall 1 2%nat true]).
Proof. by vm_compute. Qed.

(** A NULL registration takes a position but is skipped by [notify]. *)
Example notify_skips_null :
  notify sample_update (registered 6 0 [Some 1; None; Some 3]%nat) []
  = Some ([1; 3]%nat, [mkCall 0 1%nat false; mkCall 2 3%nat false]).
Proof. by vm_compute. Qed.

End ObservedFacts.

(** ** cIrqMonitor *)

Module IrqMonitorFacts.
Import nSupport.

Section Table.
Context {Handler : Type}.
Implicit Types (m : monitor Handler) (h : Handler) (pin : Z).

Lemma slot_in_range m pin :
  length (_handler m) = Z.to_nat CIRQMONITORED_MAX ->
  0 <= pin < CIRQMONITORED_MAX ->
  _handler m !! Z.to_nat pin = Some (handler_of pin m).
Proof.
  intros Hlen Hpin. unfold handler_of.
  destruct (_handler m !! Z.to_nat pin) as [slot|] eqn:Hslot; [done|].
  apply lookup_ge_None_1 in Hslot. lia.
Qed.

(** [attach] on an occupied or out-of-range pin. *)
Lemma attach_refused m pin h mode :
  length (_handler m) = Z.to_nat CIRQMONITORED_MAX -> 0 <= pin ->
  CIRQMONITORED_MAX <= pin \/ is_Some (handler_of pin m) ->
  attach pin h mode m = (false, m).
Proof.
  intros Hlen Hpin Hwhy. unfold attach.
  destruct (Z.ltb_spec pin CIRQMONITORED_MAX) as [Hin|Hout]; [|done].
  destruct Hwhy as [?|[h' Hocc]]; [lia|].
  rewrite slot_in_range, Hocc by (done || lia). done.
Qed.

(** [attach] on a free pin in range. *)
Lemma attach_free m pin h mode :
  length (_handler m) = Z.to_nat CIRQMONITORED_MAX ->
  0 <= pin < CIRQMONITORED_MAX -> handler_of pin m = None ->
  exists m',
    attach pin h mode m = (true, m') /\
    length (_handler m') = Z.to_nat CIRQMONITORED_MAX /\
    handler_of pin m' = Some h /\
    forall other, 0 <= other -> other <> pin ->
      handler_of other m' = handler_of other m.
Proof.
  intros Hlen Hpin Hfree. unfold attach.
  destruct (Z.ltb_spec pin CIRQMONITORED_MAX) as [_|?]; [|lia].
  rewrite slot_in_range, Hfree by done.
  eexists. split; [done|]. unfold handler_of; simpl.
  split; [by rewrite length_insert|]. split.
  - rewrite list_lookup_insert_eq; [done|]. lia.
  - intros other Ho Hne. rewrite list_lookup_insert_ne; [done|]. lia.
Qed.

(** [deattach] in full. *)
Lemma deattach_spec m pin :
  length (_handler m) = Z.to_nat CIRQMONITORED_MAX -> 0 <= pin ->
  exists m',
    deattach pin m = (isAttached pin m, m') /\
    length (_handler m') = Z.to_nat CIRQMONITORED_MAX /\
    (isAttached pin m = true <->
       pin < CIRQMONITORED_MAX /\ is_Some (handler_of pin m)) /\
    (isAttached pin m = true ->
       handler_of pin m' = None /\
       forall other, 0 <= other -> other <> pin ->
         handler_of other m' = handler_of other m) /\
    (isAttached pin m = false -> m' = m).
Proof.
  intros Hlen Hpin. unfold deattach, isAttached.
  destruct (Z.ltb_spec pin CIRQMONITORED_MAX) as [Hin|Hout].
  - rewrite slot_in_range by (done || lia).
    destruct (handler_of pin m) as [h|] eqn:Hocc.
    + eexists. split; [done|]. simpl.
      split; [by rewrite length_insert|].
      split; [split; [eauto | done]|]. split; [|done].
      intros _. unfold handler_of; simpl. split.
      * rewrite list_lookup_insert_eq; [done|]. lia.
      * intros other Ho Hne. rewrite list_lookup_insert_ne; [done|]. lia.
    + exists m. split; [done|]. split; [done|].
      split; [split; [done | by intros [_ [? ?]]]|]. done.
  - exists m. split; [done|]. split; [done|].
    split; [split; [done | lia]|]. done.
Qed.

End Table.

(** C9.  [attach] on an occupied or out-of-range pin returns false and
    changes nothing.  On a free pin [attach] of a first handler succeeds; a
    second [attach] on the same pin then returns false and the first handler
    stays; [deattach] then clears the pin and a new [attach] of the second
    handler succeeds.  [deattach] returns true exactly when the pin is in
    range and held a handler, which it then clears; otherwise it changes
    nothing. *)
Theorem attach_deattach_contract {Handler : Type} (m : monitor Handler)
    (pin : Z) (h1 h2 : Handler) (mode : ePINMODE) :
  length (_handler m) = Z.to_nat CIRQMONITORED_MAX -> 0 <= pin ->
  (CIRQMONITORED_MAX <= pin \/ is_Some (handler_of pin m) ->
     attach pin h2 mode m = (false, m)) /\
  (pin < CIRQMONITORED_MAX -> handler_of pin m = None ->
     exists m1 m2 m3,
       attach pin h1 mode m = (true, m1) /\
       handler_of pin m1 = Some h1 /\
       attach pin h2 mode m1 = (false, m1) /\
       deattach pin m1 = (true, m2) /\
       handler_of pin m2 = None /\
       attach pin h2 mode m2 = (true, m3) /\
       handler_of pin m3 = Some h2) /\
  (exists m',
     deattach pin m = (isAttached pin m, m') /\
     (isAttached pin m = true <->
        pin < CIRQMONITORED_MAX /\ is_Some (handler_of pin m)) /\
     (isAttached pin m = true -> handler_of pin m' = None) /\
     (isAttached pin m = false -> m' = m)).
Proof.
  intros Hlen Hpin. split; [|split].
  - by apply attach_refused.
  - intros Hin Hfree.
    destruct (attach_free m pin h1 mode) as (m1 & Ha1 & Hlen1 & Hh1 & _);
      [done | lia | done |].
    destruct (deattach_spec m1 pin Hlen1 Hpin)
      as (m2 & Hd & Hlen2 & Hiff & Hclr & _).
    assert (isAttached pin m1 = true) as Hatt.
    { apply Hiff. split; [done|]. rewrite Hh1. eauto. }
    rewrite Hatt in Hd. destruct (Hclr Hatt) as [Hh2 _].
    destruct (attach_free m2 pin h2 mode) as (m3 & Ha3 & _ & Hh3 & _);
      [done | lia | done |].
    exists m1, m2, m3. repeat (split; [done|]).
    split; [|done].
    apply attach_refused; [done | done |]. right. rewrite Hh1. eauto.
  - destruct (deattach_spec m pin Hlen Hpin)
      as (m' & Hd & _ & Hiff & Hclr & Hsame).
    exists m'. split; [done|]. split; [done|].
    split; [|done]. intros Hatt. by destruct (Hclr Hatt).
Qed.

Lemma attach_deattach_contract_witness :
  let m := monitor_init (Handler := nat) in
  (CIRQMONITORED_MAX <= 5 \/ is_Some (handler_of 5 m) ->
     attach 5 2%nat ePINMODE_CHANGE m = (false, m)) /\
  (5 < CIRQMONITORED_MAX -> handler_of 5 m = None ->
     exists m1 m2 m3,
       attach 5 1%nat ePINMODE_CHANGE m = (true, m1) /\
       handler_of 5 m1 = Some 1%nat /\
       attach 5 2%nat ePINMODE_CHANGE m1 = (false, m1) /\
       deattach 5 m1 = (true, m2) /\
       handler_of 5 m2 = None /\
       attach 5 2%nat ePINMODE_CHANGE m2 = (true, m3) /\
       handler_of 5 m3 = Some 2%nat) /\
  (exists m',
     deattach 5 m = (isAttached 5 m, m') /\
     (isAttached 5 m = true <->
        5 < CIRQMONITORED_MAX /\ is_Some (handler_of 5 m)) /\
     (isAttached 5 m = true -> handler_of 5 m' = None) /\
     (isAttached 5 m = false -> m' = m)).
Proof.
  apply (attach_deattach_contract (monitor_init (Handler := nat)) 5
           1%nat 2%nat ePINMODE_CHANGE).
  - reflexivity.
  - lia.
Defined.

(** Pin 30 is out of range; pin 5 taken twice. *)
Example attach_sample_run :
  let m0 := monitor_init (Handler := nat) in
  let '(r1, m1) := attach 5 1%nat ePINMODE_CHANGE m0 in
  let '(r2, m2) := attach 5 2%nat ePINMODE_RISING m1 in
  let '(r3, m3) := attach 30 2%nat ePINMODE_RISING m2 in
  (r1, r2, r3, handler_of 5 m3, armed m3)
  = (true, false, false, Some 1%nat, [(5, 5, ePINMODE_CHANGE)]).
Proof. by vm_compute. Qed.

End IrqMonitorFacts.

(** ** cQueue *)

Module QueueFacts.
Import nFRTOS.

(** [receive] hands the kernel the address of the caller's object: the
    head element arrives there and leaves the queue. *)
Lemma receive_head q xData_at ticks s v rest :
  queues s !! _xQHandle q = Some (v :: rest) ->
  exists s',
    receive q xData_at ticks s = (true, s') /\
    ram s' xData_at = v /\
    contents q s' = rest.
Proof.
  intros Hq. unfold receive, xQueueReceive. rewrite Hq. simpl.
  eexists. split; [done|]. unfold contents; simpl.
  split; [apply poke_eq|]. by rewrite lookup_insert_eq.
Qed.

(** C2.  [peek] hands the kernel the value of its uninitialised local
    [xData] instead of its address.  On a non-empty queue it reports
    [bReceived = true] and leaves the queue as it was, but the head element
    is written to wherever the stale value points, and what [peek] returns
    is that stale value, not the head of the queue. *)
Theorem peek_returns_stale_local q ticks xData_at s v rest :
  queues s !! _xQHandle q = Some (v :: rest) ->
  ram s xData_at <> xData_at ->
  exists s',
    peek q ticks xData_at s = ((ram s xData_at, true), s') /\
    contents q s' = v :: rest /\
    ram s' (ram s xData_at) = v /\
    exists s'',
      receive q xData_at ticks s' = (true, s'') /\ ram s'' xData_at = v.
Proof.
  intros Hq Hstale. unfold peek, xQueuePeek. rewrite Hq. simpl.
  eexists. split; [|split; [|split]].
  - rewrite poke_ne by done. done.
  - unfold contents; simpl. by rewrite Hq.
  - simpl. apply poke_eq.
  - match goal with |- context [receive q xData_at ticks ?m] =>
      destruct (receive_head q xData_at ticks m v rest Hq)
        as (s'' & Hr & Hv & _) end.
    eauto.
Qed.

Lemma peek_returns_stale_local_witness :
  let q := {| _xSize := 4; _xQHandle := 1 |} in
  let s := {| queues := {[1 := [42]]}; ram := fun _ => 7 |} in
  exists s',
    peek q 0 100 s = ((7, true), s') /\
    contents q s' = [42] /\
    ram s' 7 = 42 /\
    exists s'', receive q 100 0 s' = (true, s'') /\ ram s'' 100 = 42.
Proof.
  apply (peek_returns_stale_local {| _xSize := 4; _xQHandle := 1 |} 0 100
           {| queues := {[1 := [42]]}; ram := fun _ => 7 |} 42 []).
  - reflexivity.
  - simpl. lia.
Defined.

(** On the same machine [receive] delivers the head element. *)
Example receive_sample_run :
  let q := {| _xSize := 4; _xQHandle := 1 |} in
  let s := {| queues := {[1 := [42]]}; ram := fun _ => 7 |} in
  let '(r, s') := receive q 100 0 s in
  (r, ram s' 100, contents q s') = (true, 42, []).
Proof. by vm_compute. Qed.

End QueueFacts.

(** ** cStringHelper *)

Module StringHelperFacts.
Import cStringHelper(reverse_loop, fromInt_digits, fromInt, int32).

Lemma xor_swap a b :
  Z.lxor (Z.lxor a b) a = b /\ Z.lxor b (Z.lxor a b) = a.
Proof.
  split.
  - rewrite (Z.lxor_comm a b), Z.lxor_assoc, Z.lxor_nilpotent.
    apply Z.lxor_0_r.
  - rewrite (Z.lxor_comm a b), <- Z.lxor_assoc, Z.lxor_nilpotent.
    apply Z.lxor_0_l.
Qed.

Lemma half_bounds L : 0 <= L ->
  2 * Z.shiftr (L + 1) 1 <= L + 1 < 2 * Z.shiftr (L + 1) 1 + 2.
Proof.
  intros HL. rewrite Z.shiftr_div_pow2 by lia. change (2 ^ 1) with 2.
  pose proof (Z.div_mod (L + 1) 2). pose proof (Z.mod_pos_bound (L + 1) 2).
  lia.
Qed.

(** From position [k] on, the loop mirrors the indices [k .. L-k] and
    touches nothing else. *)
Lemma reverse_loop_spec L fuel k (m : cmem) :
  0 <= L <= 254 -> 0 <= k <= Z.shiftr (L + 1) 1 ->
  (Z.to_nat (Z.shiftr (L + 1) 1 - k) < fuel)%nat ->
  exists m',
    reverse_loop fuel m L k = Some m' /\
    forall j, m' j = if (k <=? j) && (j <=? L - k) then m (L - j) else m j.
Proof.
  intros HL. pose proof (half_bounds L) as Hhalf.
  revert k m. induction fuel as [|f IH]; intros k m Hk Hfuel; [lia|].
  simpl. destruct (Z.ltb_spec k (Z.shiftr (L + 1) 1)) as [Hlt|Hge].
  - rewrite uint8_small by lia.
    set (a := m k). set (b := m (L - k)).
    assert (k <> L - k) as Hne by lia.
    rewrite !poke_eq.
    rewrite (poke_ne _ k _ (L - k)) by lia. fold b.
    rewrite (poke_ne _ (L - k) _ k) by lia. rewrite poke_eq.
    destruct (xor_swap a b) as [Hx1 Hx2]. rewrite Hx2, Hx1.
    match goal with |- context [reverse_loop f ?s L (k + 1)] =>
      destruct (IH (k + 1) s) as (m' & Hrun & Hm'); [lia | lia |] end.
    exists m'. split; [exact Hrun|].
    intros j. rewrite Hm'. unfold poke. subst a b.
    destruct (decide (j = k)) as [->|Hjk];
      [|destruct (decide (j = L - k)) as [->|Hjl]].
    + replace (L - (L - k)) with k by lia. zbool.
    + replace (L - (L - k)) with k by lia. zbool.
    + zbool; f_equal; lia.
  - exists m. split; [done|]. intros j.
    destruct (Z.leb_spec k j), (Z.leb_spec j (L - k)); simpl; try done.
    f_equal. lia.
Qed.

(** [reverse] always returns; the characters of the first [n] positions
    come out mirrored and every other position is as before. *)
Lemma reverse_spec (m : cmem) n :
  0 <= n <= 255 ->
  exists m',
    cStringHelper.reverse m n = Some m' /\
    forall j, m' j = if (0 <=? j) && (j <? n) then m (n - 1 - j) else m j.
Proof.
  intros Hn. unfold cStringHelper.reverse.
  destruct (Z.leb_spec n 1) as [Hshort|Hlong].
  - exists m. split; [done|]. intros j.
    destruct (Z.leb_spec 0 j), (Z.ltb_spec j n); simpl; try done.
    f_equal. lia.
  - rewrite uint8_small by lia.
    destruct (reverse_loop_spec (n - 1) 256 0 m) as (m' & Hrun & Hm').
    + lia.
    + pose proof (half_bounds (n - 1)). lia.
    + pose proof (half_bounds (n - 1)). lia.
    + exists m'. split; [exact Hrun|]. intros j. rewrite Hm'.
      destruct (Z.leb_spec 0 j), (Z.leb_spec j (n - 1 - 0)),
        (Z.ltb_spec j n); simpl; try lia; done.
Qed.

(** *** Character memory as lists *)

Lemma length_chars_at p i n : length (chars_at p i n) = Z.to_nat n.
Proof. unfold chars_at. by rewrite length_fmap, length_seqZ. Qed.

Lemma chars_at_lookup p i n (k : nat) :
  Z.of_nat k < n -> chars_at p i n !! k = Some (p (i + Z.of_nat k)).
Proof.
  intros Hk. unfold chars_at.
  by rewrite list_lookup_fmap, lookup_seqZ_lt.
Qed.

Lemma chars_at_ext p q i i' n :
  (forall k, 0 <= k < n -> p (i + k) = q (i' + k)) ->
  chars_at p i n = chars_at q i' n.
Proof.
  intros Hpq. apply list_eq. intros k.
  destruct (decide (Z.of_nat k < n)) as [Hk|Hk].
  - rewrite !chars_at_lookup by done. f_equal. apply Hpq. lia.
  - rewrite !lookup_ge_None_2; [done | |]; rewrite length_chars_at; lia.
Qed.

Lemma chars_at_app p i a b :
  0 <= a -> 0 <= b ->
  chars_at p i (a + b) = chars_at p i a ++ chars_at p (i + a) b.
Proof.
  intros Ha Hb. unfold chars_at. by rewrite seqZ_app, fmap_app.
Qed.

Lemma chars_at_cons p i n :
  0 < n -> chars_at p i n = p i :: chars_at p (i + 1) (n - 1).
Proof.
  intros Hn. unfold chars_at. rewrite (seqZ_cons i n) by lia.
  rewrite fmap_cons. do 2 f_equal; f_equal; lia.
Qed.

Lemma chars_at_mirrored (m' m : cmem) n :
  (forall j, 0 <= j < n -> m' j = m (n - 1 - j)) ->
  chars_at m' 0 n = reverse (chars_at m 0 n).
Proof.
  intros Hm. apply list_eq. intros k.
  destruct (decide (Z.of_nat k < n)) as [Hk|Hk].
  - rewrite chars_at_lookup by done.
    rewrite reverse_lookup by (rewrite length_chars_at; lia).
    rewrite length_chars_at, chars_at_lookup by lia.
    f_equal. rewrite Hm by lia. f_equal. lia.
  - rewrite !lookup_ge_None_2; [done | |];
      rewrite ?length_reverse, length_chars_at; lia.
Qed.

(** X1.  [reverse] returns for every length an 8-bit parameter can
    carry; the first [n] characters come out in reverse order and no other
    byte of memory changes (lengths 0 and 1 change nothing at all). *)
Theorem reverse_reverses (m : cmem) n :
  0 <= n <= 255 ->
  exists m',
    cStringHelper.reverse m n = Some m' /\
    chars_at m' 0 n = reverse (chars_at m 0 n) /\
    forall j, j < 0 \/ n <= j -> m' j = m j.
Proof.
  intros Hn. destruct (reverse_spec m n Hn) as (m' & Hrun & Hm').
  exists m'. split; [exact Hrun|]. split.
  - apply chars_at_mirrored. intros j Hj. rewrite Hm'. zbool.
  - intros j Hj. rewrite Hm'. zbool.
Qed.

Lemma reverse_reverses_witness :
  exists m',
    cStringHelper.reverse (cstr [72; 69; 76; 76; 79]) 5 = Some m' /\
    chars_at m' 0 5 = reverse (chars_at (cstr [72; 69; 76; 76; 79]) 0 5) /\
    forall j, j < 0 \/ 5 <= j -> m' j = cstr [72; 69; 76; 76; 79] j.
Proof. apply (reverse_reverses (cstr [72; 69; 76; 76; 79]) 5). lia. Defined.

(** X2.  Reversing twice with the same length gives back every byte. *)
Theorem reverse_twice (m : cmem) n :
  0 <= n <= 255 ->
  exists m' m'',
    cStringHelper.reverse m n = Some m' /\
    cStringHelper.reverse m' n = Some m'' /\
    forall j, m'' j = m j.
Proof.
  intros Hn. destruct (reverse_spec m n Hn) as (m' & Hrun & Hm').
  destruct (reverse_spec m' n Hn) as (m'' & Hrun' & Hm'').
  exists m', m''. split; [exact Hrun|]. split; [exact Hrun'|].
  intros j. rewrite Hm''.
  destruct (Z.leb_spec 0 j), (Z.ltb_spec j n); simpl;
    rewrite Hm'; zbool; f_equal; lia.
Qed.

Lemma reverse_twice_witness :
  exists m' m'',
    cStringHelper.reverse (cstr [72; 69; 76; 76; 79]) 5 = Some m' /\
    cStringHelper.reverse m' 5 = Some m'' /\
    forall j, m'' j = cstr [72; 69; 76; 76; 79] j.
Proof. apply (reverse_twice (cstr [72; 69; 76; 76; 79]) 5). lia. Defined.

(** *** fromInt *)

Lemma land_15 d : 0 <= d < 16 -> Z.land d 15 = d.
Proof.
  intros Hd. change 15 with (Z.ones 4).
  rewrite Z.land_ones by lia. apply Z.mod_small. simpl. lia.
Qed.

Lemma digit_char_facts d :
  0 <= d < 16 ->
  digit_value (digit_char d) = d /\ digit_char d <> NUL /\
  digit_char d <> 45.
Proof.
  intros Hd.
  assert (d = 0 \/ d = 1 \/ d = 2 \/ d = 3 \/ d = 4 \/ d = 5 \/ d = 6 \/
          d = 7 \/ d = 8 \/ d = 9 \/ d = 10 \/ d = 11 \/ d = 12 \/
          d = 13 \/ d = 14 \/ d = 15) as Hcase by lia.
  repeat (destruct Hcase as [->|Hcase]; [by vm_compute|]).
  subst d. by vm_compute.
Qed.

Lemma fromInt_digits_step f (p : cmem) n base i :
  fromInt_digits (S f) p n base i =
    if 0 <? Z.quot n base then
      fromInt_digits f
        (poke p i (digit_char (Z.land (Z.rem n base) 15)))
        (Z.quot n base) base (i + 1)
    else Some (poke p i (digit_char (Z.land (Z.rem n base) 15)), i + 1).
Proof. reflexivity. Qed.

(** The digit loop: for [0 <= n < base^k] it stores at most [k] digit
    characters from [p[i]] on, least significant first, and returns. *)
Lemma fromInt_digits_spec base fuel k n i (p : cmem) :
  2 <= base <= 16 -> (1 <= k <= fuel)%nat -> 0 <= n < base ^ Z.of_nat k ->
  exists ds p',
    fromInt_digits fuel p n base i = Some (p', i + Z.of_nat (length ds)) /\
    (1 <= length ds <= k)%nat /\
    Forall (fun d => 0 <= d < base) ds /\
    value_lsf base ds = n /\
    chars_at p' i (Z.of_nat (length ds)) = digit_char <$> ds /\
    forall j, j < i \/ i + Z.of_nat (length ds) <= j -> p' j = p j.
Proof.
  intros Hb. revert k n i p.
  induction fuel as [|f IH]; intros k n i p Hk Hn; [lia|].
  rewrite fromInt_digits_step.
  rewrite Z.rem_mod_nonneg, Z.quot_div_nonneg by lia.
  pose proof (Z.mod_pos_bound n base) as Hd.
  pose proof (Z.div_mod n base) as Hdm.
  rewrite land_15 by lia.
  destruct (Z.ltb_spec 0 (n / base)) as [Hmore|Hlast].
  - assert (n / base < base ^ Z.of_nat (k - 1)) as Hq.
    { apply Z.div_lt_upper_bound; [lia|].
      rewrite <- Z.pow_succ_r by lia.
      replace (Z.succ (Z.of_nat (k - 1))) with (Z.of_nat k) by lia. lia. }
    assert (k - 1 <> 0)%nat as Hk1.
    { intros Hz. rewrite Hz in Hq. simpl in Hq. lia. }
    destruct (IH (k - 1)%nat (n / base) (i + 1)
                (poke p i (digit_char (n mod base))))
      as (ds & p' & Hrun & Hlen & Hds & Hval & Hchars & Hframe);
      [lia | lia |].
    exists (n mod base :: ds), p'. simpl length.
    split; [rewrite Hrun; do 2 f_equal; lia|].
    split; [lia|]. split; [constructor; [lia | done]|].
    split; [simpl; rewrite Hval; lia|]. split.
    + rewrite chars_at_cons by lia. rewrite fmap_cons. f_equal.
      * rewrite Hframe by lia. apply poke_eq.
      * rewrite <- Hchars. f_equal. lia.
    + intros j Hj. rewrite Hframe by lia. apply poke_ne. lia.
  - exists [n mod base], (poke p i (digit_char (n mod base))). simpl length.
    assert (n / base = 0) as Hz.
    { pose proof (Z.div_pos n base). lia. }
    split; [done|]. split; [lia|].
    split; [repeat constructor; lia|].
    split; [simpl; lia|]. split.
    + rewrite chars_at_cons by lia. simpl. by rewrite poke_eq.
    + intros j Hj. apply poke_ne. lia.
Qed.

Lemma parse_digits_snoc base cs c acc :
  parse_digits base (cs ++ [c]) acc
  = parse_digits base cs acc * base + digit_value c.
Proof. revert acc. induction cs as [|c' cs IH]; intros acc; simpl; auto. Qed.

(** Reading the stored digits back, most significant first. *)
Lemma parse_digits_reverse base ds :
  Forall (fun d => 0 <= d < 16) ds ->
  parse_digits base (reverse (digit_char <$> ds)) 0 = value_lsf base ds.
Proof.
  induction 1 as [|d ds Hd _ IH]; [done|].
  rewrite fmap_cons, reverse_cons, parse_digits_snoc, IH. simpl.
  destruct (digit_char_facts d Hd) as [-> _]. lia.
Qed.

Lemma chars_at_poke_outside (p : cmem) j v i n :
  j < i \/ i + n <= j -> chars_at (poke p j v) i n = chars_at p i n.
Proof.
  intros Hj. apply chars_at_ext. intros k Hk. apply poke_ne. lia.
Qed.

Lemma chars_at_one (p : cmem) i : chars_at p i 1 = [p i].
Proof. rewrite chars_at_cons by lia. done. Qed.

(** What [fromInt] leaves in memory: an optional minus sign, the digits
    of [|n|] most significant first, a terminator, and no other change. *)
Lemma fromInt_spec base fuel k (p : cmem) n :
  2 <= base <= 16 -> - 2147483648 < n < 2147483648 ->
  (1 <= k <= fuel)%nat -> (k <= 31)%nat -> Z.abs n < base ^ Z.of_nat k ->
  exists ds p',
    fromInt fuel p n base = Some p' /\
    (1 <= length ds <= k)%nat /\
    Forall (fun d => 0 <= d < base) ds /\
    value_lsf base ds = Z.abs n /\
    let s := (if n <? 0 then [45] else []) ++ reverse (digit_char <$> ds) in
    chars_at p' 0 (Z.of_nat (length s)) = s /\
    p' (Z.of_nat (length s)) = NUL /\
    forall j, j < 0 \/ Z.of_nat (length s) < j -> p' j = p j.
Proof.
  intros Hb Hn Hk Hk31 Habs. unfold fromInt.
  assert ((if n <? 0 then int32 (- n) else n) = Z.abs n) as ->.
  { destruct (Z.ltb_spec n 0); [|lia].
    unfold int32. rewrite Z.mod_small by lia. lia. }
  destruct (fromInt_digits_spec base fuel k (Z.abs n) 0 p)
    as (ds & p1 & Hrun & Hlen & Hds & Hval & Hchars & Hframe);
    [done | done | lia |].
  set (nd := Z.of_nat (length ds)) in *.
  rewrite (Z.add_0_l nd) in Hrun, Hframe. rewrite Hrun.
  exists ds. destruct (Z.ltb_spec n 0) as [Hneg|Hpos].
  - assert (uint8 (nd + 1) = nd + 1) as -> by (apply uint8_small; lia).
    destruct (reverse_spec (poke (poke p1 nd 45) (nd + 1) NUL) (nd + 1))
      as (p2 & Hrev & Hp2); [lia|].
    exists p2. split; [exact Hrev|]. split; [done|]. split; [done|].
    split; [done|].
    assert (Z.of_nat (length ([45] ++ reverse (digit_char <$> ds)))
            = nd + 1) as Hs.
    { rewrite length_app, length_reverse, length_fmap. simpl. lia. }
    cbv zeta. rewrite Hs. split; [|split].
    + rewrite (chars_at_mirrored p2 (poke (poke p1 nd 45) (nd + 1) NUL))
        by (intros j Hj; rewrite Hp2; zbool).
      rewrite chars_at_app by lia.
      rewrite !chars_at_poke_outside by lia.
      rewrite Z.add_0_l, Hchars, chars_at_one, poke_eq.
      by rewrite reverse_app.
    + rewrite Hp2.
      destruct (Z.leb_spec 0 (nd + 1)), (Z.ltb_spec (nd + 1) (nd + 1));
        simpl; try lia. apply poke_eq.
    + intros j Hj. rewrite Hp2.
      destruct (Z.leb_spec 0 j), (Z.ltb_spec j (nd + 1)); simpl; try lia;
        rewrite !poke_ne by lia; apply Hframe; lia.
  - assert (uint8 nd = nd) as -> by (apply uint8_small; lia).
    destruct (reverse_spec (poke p1 nd NUL) nd) as (p2 & Hrev & Hp2); [lia|].
    exists p2. split; [exact Hrev|]. split; [done|]. split; [done|].
    split; [done|].
    assert (Z.of_nat (length ([] ++ reverse (digit_char <$> ds))) = nd)
      as Hs.
    { simpl. rewrite length_reverse, length_fmap. done. }
    cbv zeta. rewrite Hs. split; [|split].
    + rewrite (chars_at_mirrored p2 (poke p1 nd NUL))
        by (intros j Hj; rewrite Hp2; zbool).
      rewrite chars_at_poke_outside by lia. by rewrite Hchars.
    + rewrite Hp2.
      destruct (Z.leb_spec 0 nd), (Z.ltb_spec nd nd); simpl; try lia.
      apply poke_eq.
    + intros j Hj. rewrite Hp2.
      destruct (Z.leb_spec 0 j), (Z.ltb_spec j nd); simpl; try lia;
        rewrite !poke_ne by lia; apply Hframe; lia.
Qed.

Lemma parse_int_unsigned base cs :
  Forall (fun c => c <> 45) cs -> parse_int base cs = parse_digits base cs 0.
Proof.
  intros [|c rest Hc _]; [done|]. unfold parse_int.
  by destruct (Z.eqb_spec c 45).
Qed.

(** [fromInt] in terms of the text it leaves: it returns, the text is a
    terminated string of at most [k+1] characters that reads back as [n],
    and memory below the pointer and above the terminator is untouched. *)
Lemma fromInt_text base fuel k (p : cmem) n :
  2 <= base <= 16 -> - 2147483648 < n < 2147483648 ->
  (1 <= k <= fuel)%nat -> (k <= 31)%nat -> Z.abs n < base ^ Z.of_nat k ->
  exists p' len,
    fromInt fuel p n base = Some p' /\
    1 <= len <= Z.of_nat k + 1 /\
    cstring_at p' len /\
    parse_int base (chars_at p' 0 len) = n /\
    forall j, j < 0 \/ len < j -> p' j = p j.
Proof.
  intros Hb Hn Hk Hk31 Habs.
  destruct (fromInt_spec base fuel k p n Hb Hn Hk Hk31 Habs)
    as (ds & p' & Hrun & Hlen & Hds & Hval & Hchars & Hnul & Hframe).
  set (s := (if n <? 0 then [45] else []) ++ reverse (digit_char <$> ds))
    in *.
  assert (Forall (fun d => 0 <= d < 16) ds) as Hds16.
  { eapply Forall_impl; [exact Hds|]. simpl. intros d Hd. lia. }
  assert (Forall (fun c => c <> NUL) (reverse (digit_char <$> ds))) as Hnz.
  { apply Forall_reverse, Forall_fmap.
    eapply Forall_impl; [exact Hds16|]. intros d Hd.
    by destruct (digit_char_facts d Hd) as (_ & ? & _). }
  assert (Forall (fun c => c <> 45) (reverse (digit_char <$> ds))) as Hns.
  { apply Forall_reverse, Forall_fmap.
    eapply Forall_impl; [exact Hds16|]. intros d Hd.
    by destruct (digit_char_facts d Hd) as (_ & _ & ?). }
  assert (Z.of_nat (length s)
          = Z.of_nat (length ds) + (if n <? 0 then 1 else 0)) as Hs.
  { unfold s. rewrite length_app, length_reverse, length_fmap.
    destruct (n <? 0); simpl; lia. }
  exists p', (Z.of_nat (length s)).
  split; [exact Hrun|]. split; [destruct (n <? 0); lia|].
  split; [|split; [|exact Hframe]].
  - split; [|exact Hnul]. intros i Hi.
    assert (s !! Z.to_nat i = Some (p' i)) as Hlook.
    { rewrite <- Hchars, chars_at_lookup by lia. do 2 f_equal. lia. }
    assert (Forall (fun c => c <> NUL) s) as Hall.
    { unfold s. apply Forall_app. split; [|exact Hnz].
      destruct (n <? 0); repeat constructor. discriminate. }
    rewrite Forall_lookup in Hall. by apply (Hall _ _ Hlook).
  - rewrite Hchars. unfold s.
    destruct (Z.ltb_spec n 0) as [Hneg|Hpos]; simpl.
    + rewrite parse_digits_reverse, Hval by done. lia.
    + rewrite parse_int_unsigned, parse_digits_reverse, Hval by done. lia.
Qed.

(** X3.  For a radix from 2 to 16 and any 32-bit [n] other than the most
    negative one, [fromInt] returns with a terminated string of 1 to 32
    characters in the buffer which, read back in that radix (minus sign,
    then digits [0-9a-f]), is [n]; no byte before the buffer or after the
    terminator changes. *)
Theorem fromInt_round_trip base fuel (p : cmem) n :
  2 <= base <= 16 -> - 2147483648 < n < 2147483648 -> (31 <= fuel)%nat ->
  exists p' len,
    fromInt fuel p n base = Some p' /\
    1 <= len <= 32 /\
    cstring_at p' len /\
    parse_int base (chars_at p' 0 len) = n /\
    forall j, j < 0 \/ len < j -> p' j = p j.
Proof.
  intros Hb Hn Hfuel.
  destruct (fromInt_text base fuel 31 p n Hb Hn) as (p' & len & H);
    [lia | lia | |].
  - pose proof (Z.pow_le_mono_l 2 base 31). change (2 ^ 31) with 2147483648 in *.
    change (Z.of_nat 31) with 31. lia.
  - exists p', len. change (Z.of_nat 31 + 1) with 32 in H. exact H.
Qed.

Lemma fromInt_round_trip_witness :
  exists p' len,
    fromInt 40 (fun _ => 85) (-1234) 10 = Some p' /\
    1 <= len <= 32 /\
    cstring_at p' len /\
    parse_int 10 (chars_at p' 0 len) = -1234 /\
    forall j, j < 0 \/ len < j -> p' j = 85.
Proof.
  apply (fromInt_round_trip 10 40 (fun _ => 85) (-1234)); lia.
Defined.

(** X4.  If [|n| < base^k] the string [fromInt] builds has at most [k+1]
    characters (sign and [k] digits): with the terminator it needs [k+2]
    bytes and writes nothing beyond them.  Twelve bytes hold any 32-bit
    value in radix 10. *)
Theorem fromInt_buffer_bound base fuel (k : nat) (p : cmem) n :
  2 <= base <= 16 -> - 2147483648 < n < 2147483648 ->
  (1 <= k <= 31)%nat -> (k <= fuel)%nat -> Z.abs n < base ^ Z.of_nat k ->
  exists p',
    fromInt fuel p n base = Some p' /\
    (exists len, 1 <= len <= Z.of_nat k + 1 /\ cstring_at p' len) /\
    forall j, j < 0 \/ Z.of_nat k + 1 < j -> p' j = p j.
Proof.
  intros Hb Hn Hk Hfuel Habs.
  destruct (fromInt_text base fuel k p n Hb Hn)
    as (p' & len & Hrun & Hlen & Hstr & _ & Hframe); [lia | lia | done |].
  exists p'. split; [exact Hrun|]. split; [exists len; split; [lia | done]|].
  intros j Hj. apply Hframe. lia.
Qed.

Lemma fromInt_buffer_bound_witness :
  exists p',
    fromInt 10 (fun _ => 85) (-2147483647) 10 = Some p' /\
    (exists len, 1 <= len <= Z.of_nat 10 + 1 /\ cstring_at p' len) /\
    forall j, j < 0 \/ Z.of_nat 10 + 1 < j -> p' j = 85.
Proof.
  apply (fromInt_buffer_bound 10 10 10 (fun _ => 85) (-2147483647));
    simpl; lia.
Defined.

Lemma fromInt_digits_radix_one fuel (p : cmem) n i :
  0 < n -> fromInt_digits fuel p n 1 i = None.
Proof.
  intros Hn. revert p i. induction fuel as [|f IH]; intros p i; [done|].
  rewrite fromInt_digits_step, Z.quot_1_r.
  destruct (Z.ltb_spec 0 n); [apply IH | lia].
Qed.

(** X5.  With radix 1 and a non-zero [n] the digit loop of [fromInt]
    never ends: [n /= 1] leaves [n] as it is, so no number of rounds
    makes it return. *)
Theorem fromInt_radix_one_diverges fuel (p : cmem) n :
  n <> 0 -> - 2147483648 < n < 2147483648 -> fromInt fuel p n 1 = None.
Proof.
  intros Hnz Hn. unfold fromInt.
  rewrite fromInt_digits_radix_one; [done|].
  destruct (Z.ltb_spec n 0); [|lia].
  unfold int32. rewrite Z.mod_small by lia. lia.
Qed.

Lemma fromInt_radix_one_diverges_witness :
  fromInt 1000 (fun _ => 85) 7 1 = None.
Proof. apply (fromInt_radix_one_diverges 1000 (fun _ => 85) 7); lia. Defined.

End StringHelperFacts.

(** ** blockingReadLine *)

Module ReadLineFacts.
Import nText.

Lemma uint8_succ z :
  0 <= z <= 255 -> uint8 (z + 1) = if z =? 255 then 0 else z + 1.
Proof.
  intros Hz. destruct (Z.eqb_spec z 255) as [->|Hne]; [done|].
  apply uint8_small. lia.
Qed.

Lemma read_inv_step N buf pscData scLast ucLength c :
  0 <= N -> read_inv N buf pscData scLast ucLength ->
  read_inv N buf
    (poke pscData (if N <=? ucLength then 0 else ucLength) c) c
    (uint8 ((if N <=? ucLength then 0 else ucLength) + 1)).
Proof.
  intros HN (Hlen & Hlast & Hframe).
  set (idx := if N <=? ucLength then 0 else ucLength).
  assert (0 <= idx <= 255 /\ idx <= N) as Hidx.
  { unfold idx. destruct (Z.leb_spec N ucLength); lia. }
  rewrite uint8_succ by lia. split; [|split].
  - destruct (Z.eqb_spec idx 255); lia.
  - intros Hpos. destruct (Z.eqb_spec idx 255); [lia|].
    replace (idx + 1 - 1) with idx by lia. apply poke_eq.
  - intros j Hj. rewrite poke_ne by lia. by apply Hframe.
Qed.

Lemma blockingReadLine_loop_inv N buf src pscData scLast ucLength delays :
  0 <= N -> read_inv N buf pscData scLast ucLength ->
  (forall j, j < 0 \/ N < j ->
     read_memory
       (blockingReadLine_loop N src pscData scLast ucLength delays) j
     = buf j) /\
  (forall p len rest d,
     blockingReadLine_loop N src pscData scLast ucLength delays
       = Returned p len rest d ->
     2 <= len <= N /\ len <= 255 /\
     p (len - 2) = CR /\ p (len - 1) = LF /\ p len = NUL /\
     exists used, src = used ++ rest).
Proof.
  intros HN. revert pscData scLast ucLength delays.
  induction src as [|[c|] src IH]; intros pscData scLast ucLength delays Hinv.
  - simpl. split; [apply Hinv | discriminate].
  - pose proof (read_inv_step N buf pscData scLast ucLength c HN Hinv)
      as Hnext.
    destruct (IH _ _ _ (S delays) Hnext) as [IHframe IHret].
    assert (forall p len rest d,
              blockingReadLine_loop N src
                (poke pscData (if N <=? ucLength then 0 else ucLength) c) c
                (uint8 ((if N <=? ucLength then 0 else ucLength) + 1))
                (S delays) = Returned p len rest d ->
              2 <= len <= N /\ len <= 255 /\
              p (len - 2) = CR /\ p (len - 1) = LF /\ p len = NUL /\
              exists used, Some c :: src = used ++ rest) as IHret'.
    { intros p len rest d Hret.
      destruct (IHret p len rest d Hret) as (? & ? & ? & ? & ? & used & ->).
      repeat (split; [done|]). by exists (Some c :: used). }
    destruct Hinv as (Hlen & Hlast & Hframe).
    destruct Hnext as (Hlen1 & Hlast1 & Hframe1).
    simpl.
    set (idx := if N <=? ucLength then 0 else ucLength) in *.
    destruct ((c =? LF) && (scLast =? CR)) eqn:Hpair; [|by split].
    destruct (Z.ltb_spec 1 (uint8 (idx + 1))) as [Hdone|Hheld]; [|by split].
    apply andb_prop in Hpair as [Hc Hl].
    apply Z.eqb_eq in Hc, Hl. subst c scLast.
    assert (0 <= idx <= 255) as Hidx
      by (unfold idx; destruct (Z.leb_spec N ucLength); lia).
    rewrite uint8_succ in * by lia.
    destruct (Z.eqb_spec idx 255) as [?|Hne]; [lia|].
    assert (idx = ucLength /\ ucLength < N) as [Hsame Hroom].
    { unfold idx in *. destruct (Z.leb_spec N ucLength); lia. }
    simpl. split.
    + intros j Hj. rewrite poke_ne by lia. by apply Hframe1.
    + intros p len rest d Hret. injection Hret as <- <- <- <-.
      split; [lia|]. split; [lia|].
      replace (idx + 1 - 2) with (idx - 1) by lia.
      replace (idx + 1 - 1) with idx by lia.
      rewrite poke_eq, !poke_ne, poke_eq by lia.
      rewrite Hsame. split; [apply Hlast; lia|].
      split; [done|]. split; [done|]. by exists [Some LF].
  - destruct (IH pscData scLast ucLength (S delays) Hinv) as [IHframe IHret].
    simpl. split; [exact IHframe|].
    intros p len rest d Hret.
    destruct (IHret p len rest d Hret) as (? & ? & ? & ? & ? & used & ->).
    repeat (split; [done|]). by exists (None :: used).
Qed.

Lemma read_inv_start N buf : read_inv N buf buf 0 0.
Proof. split; [lia|]. split; [lia | done]. Qed.





(** X7.  Whenever [blockingReadLine] returns, the stored length is
    between 2 and [N] (and fits 8 bits), the line ends in carriage-return,
    line-feed at that length with the terminator right behind, and the
    characters not yet read are a tail of the source. *)
Theorem blockingReadLine_returns_line N src buf p len rest d :
  0 <= N ->
  blockingReadLine N src buf = Returned p len rest d ->
  2 <= len <= N /\ len <= 255 /\
  p (len - 2) = CR /\ p (len - 1) = LF /\ p len = NUL /\
  exists used, src = used ++ rest.
Proof.
  intros HN Hret.
  destruct (blockingReadLine_loop_inv N buf src buf 0 0 0 HN
              (read_inv_start N buf)) as [_ Hpost].
  by apply (Hpost p len rest d).
Qed.

Lemma blockingReadLine_returns_line_witness :
  2 <= 7 <= 80 /\ 7 <= 255 /\
  poke (cstr_line_80) 7 NUL (7 - 2) = CR /\
  poke (cstr_line_80) 7 NUL (7 - 1) = LF /\
  poke (cstr_line_80) 7 NUL 7 = NUL /\
  exists used, Some <$> [72; 69; 76; 76; 79; CR; LF] = used ++ [].
Proof.
  apply (blockingReadLine_returns_line 80
           (Some <$> [72; 69; 76; 76; 79; CR; LF]) (fun _ => 85)
           (poke cstr_line_80 7 NUL) 7 [] 6%nat).
  - lia.
  - reflexivity.
Defined.

(** Failed [characterRead] calls do not change what is read. *)
Lemma read_line_ignores_idle N src pscData scLast ucLength d d' :
  read_line (blockingReadLine_loop N src pscData scLast ucLength d)
  = read_line
      (blockingReadLine_loop N (Some <$> omap id src) pscData scLast
         ucLength d').
Proof.
  revert pscData scLast ucLength d d'.
  induction src as [|[c|] src IH]; intros pscData scLast ucLength d d';
    simpl; [done| |apply IH].
  destruct (_ && _); [destruct (_ <? _); [done|]|]; apply IH.
Qed.

(** Reading the rest [cs] of a line and its end, from write index [len]. *)
Lemma blockingReadLine_loop_line N cs (p : cmem) scLast len d :
  0 <= len -> len + Z.of_nat (length cs) + 2 <= N ->
  len + Z.of_nat (length cs) + 2 <= 255 -> LF ∉ cs ->
  exists p' d',
    blockingReadLine_loop N (Some <$> (cs ++ [CR; LF])) p scLast len d
      = Returned p' (len + Z.of_nat (length cs) + 2) [] d' /\
    chars_at p' len (Z.of_nat (length cs) + 3) = cs ++ [CR; LF; NUL] /\
    forall j, j < len -> p' j = p j.
Proof.
  revert p scLast len d.
  induction cs as [|c cs IH]; intros p scLast len d Hlen HN H255 Hnolf.
  - simpl in *.
    destruct (Z.leb_spec N len) as [?|_]; [lia|].
    rewrite (uint8_small (len + 1)) by lia.
    destruct (Z.leb_spec N (len + 1)) as [?|_]; [lia|].
    rewrite (uint8_small (len + 1 + 1)) by lia.
    destruct (Z.ltb_spec 1 (len + 1 + 1)) as [_|?]; [|lia].
    eexists _, _. split; [f_equal; lia|]. split.
    + rewrite !StringHelperFacts.chars_at_cons by lia.
      replace (Z.of_nat 0 + 3 - 1 - 1 - 1) with 0 by lia.
      unfold chars_at, poke. simpl. zbool.
    + intros j Hj. by rewrite !poke_ne by lia.
  - apply not_elem_of_cons in Hnolf as [Hc Hnolf].
    simpl length in *. rewrite <- app_comm_cons, fmap_cons.
    cbn [blockingReadLine_loop].
    destruct (Z.leb_spec N len) as [?|_]; [lia|].
    rewrite (uint8_small (len + 1)) by lia.
    destruct (Z.eqb_spec c LF) as [?|_]; [done|]. cbn [andb].
    destruct (IH (poke p len c) c (len + 1) (S d))
      as (p' & d' & Hrun & Hchars & Hframe); [lia | lia | lia | done |].
    exists p', d'. split; [rewrite Hrun; f_equal; lia|]. split.
    + rewrite StringHelperFacts.chars_at_cons by lia.
      rewrite Hframe, poke_eq by lia.
      replace (Z.of_nat (S (length cs)) + 3 - 1)
        with (Z.of_nat (length cs) + 3) by lia.
      by rewrite Hchars.
    + intros j Hj. rewrite Hframe by lia. apply poke_ne. lia.
Qed.

(** X8.  A line of characters without a line-feed, followed by
    carriage-return and line-feed, that fits the buffer ([length + 2 <= N]
    and [<= 255]) is read back exactly, with the terminator behind it,
    however many failed reads lie between the characters. *)
Theorem blockingReadLine_reads_line N src cs buf :
  omap id src = cs ++ [CR; LF] -> LF ∉ cs ->
  Z.of_nat (length cs) + 2 <= N -> Z.of_nat (length cs) + 2 <= 255 ->
  read_line (blockingReadLine N src buf) = Some (cs ++ [CR; LF; NUL]).
Proof.
  intros Hsrc Hnolf HN H255. unfold blockingReadLine.
  rewrite (read_line_ignores_idle N src buf 0 0 0%nat 0%nat), Hsrc.
  destruct (blockingReadLine_loop_line N cs buf 0 0 0%nat)
    as (p' & d' & Hrun & Hchars & _); [lia | lia | lia | done |].
  rewrite Hrun. simpl. f_equal.
  rewrite <- Hchars. unfold chars_at. do 2 f_equal. lia.
Qed.

Lemma blockingReadLine_reads_line_witness :
  read_line
    (blockingReadLine 80
       [None; Some 72; Some 73; None; None; Some CR; Some LF]
       (fun _ => 85))
  = Some ([72; 73] ++ [CR; LF; NUL]).
Proof.
  apply (blockingReadLine_reads_line 80
           [None; Some 72; Some 73; None; None; Some CR; Some LF]
           [72; 73] (fun _ => 85)).
  - reflexivity.
  - intros Hin. apply elem_of_cons in Hin as [Hin|Hin]; [discriminate|].
    apply elem_of_cons in Hin as [Hin|Hin]; [discriminate|].
    by apply elem_of_nil in Hin.
  - simpl. lia.
  - simpl. lia.
Defined.

End ReadLineFacts.

(** ** notify over arbitrary registrations *)

Module NotifyFacts.
Import nPattern.

Section Slots.
Context {Listener World : Type}.
Variable update : Listener -> cObserved Listener -> World -> bool * World.
Variable cap : Z.
Hypothesis cap_fits : 0 <= cap <= 255.

Lemma notify_loop_slots (o : cObserved Listener) ps suf pre fuel w :
  after cap ps o -> pre ++ suf = take (Z.to_nat cap) ps ->
  (length suf < fuel)%nat ->
  notify_loop update fuel o (Z.of_nat (length pre)) w
  = Some (notify_slots update o suf (Z.of_nat (length pre)) w).
Proof.
  intros (Hcount & _ & Hslots).
  assert (_ucListenerCount o = Z.of_nat (length (take (Z.to_nat cap) ps)))
    as Hc by (rewrite length_take; lia).
  revert pre fuel w.
  induction suf as [|x rest IH]; intros pre fuel w Hps Hfuel;
    (destruct fuel as [|k]; [simpl in Hfuel; lia|]); simpl.
  - rewrite app_nil_r in Hps. subst pre.
    destruct (Z.ltb_spec (Z.of_nat (length (take (Z.to_nat cap) ps)))
                (_ucListenerCount o)); [lia | done].
  - assert (length (take (Z.to_nat cap) ps)
            = length pre + S (length rest))%nat as Hlen.
    { rewrite <- Hps, length_app. done. }
    destruct (Z.ltb_spec (Z.of_nat (length pre)) (_ucListenerCount o));
      [|lia].
    assert (_pxListener o !! length pre = Some x) as Hx.
    { rewrite Hslots by lia.
      rewrite <- (lookup_take_lt ps (Z.to_nat cap))
        by (rewrite length_take in Hlen; lia).
      rewrite <- Hps. by apply list_lookup_middle. }
    rewrite Nat2Z.id, Hx. rewrite uint8_small by lia.
    assert (Z.of_nat (length pre) + 1 = Z.of_nat (length (pre ++ [x])))
      as Hnext by (rewrite length_app; simpl; lia).
    assert ((pre ++ [x]) ++ rest = take (Z.to_nat cap) ps) as Hps'
      by (by rewrite <- app_assoc).
    destruct x as [l|].
    + destruct (update l o w) as [[|] w']; [done|].
      rewrite Hnext, (IH (pre ++ [Some l]) k w' Hps')
        by (simpl in Hfuel; lia).
      by destruct (notify_slots _ _ _ _ _).
    + rewrite Hnext. apply IH; [done | simpl in Hfuel; lia].
Qed.

(** Every call made along an array goes to a non-NULL entry of it. *)
Lemma notify_slots_log (o : cObserved Listener) slots j w c :
  c ∈ (notify_slots update o slots j w).2 ->
  exists i : nat,
    at_index c = j + Z.of_nat i /\ slots !! i = Some (Some (callee c)).
Proof.
  revert j w. induction slots as [|[l|] rest IH]; intros j w Hin; simpl in Hin.
  - by apply elem_of_nil in Hin.
  - destruct (update l o w) as [[|] w'].
    + apply list_elem_of_singleton in Hin as ->.
      exists 0%nat. split; [simpl; lia | done].
    + specialize (IH (j + 1) w').
      destruct (notify_slots update o rest (j + 1) w') as [w'' cs].
      simpl in *. apply elem_of_cons in Hin as [->|Hin].
      * exists 0%nat. split; [simpl; lia | done].
      * destruct (IH Hin) as (i & Hat & Hslot).
        exists (S i). split; [lia | done].
  - destruct (IH (j + 1) w Hin) as (i & Hat & Hslot).
    exists (S i). split; [lia | done].
Qed.

End Slots.

(** X9.  After any registrations, NULL pointers and registrations past the
    capacity included, [notify] returns and walks the first [capacity]
    registrations in order, passing over NULL pointers and stopping at the
    first acceptance.  Every call it makes goes to a listener registered
    at a position below the capacity: a listener dropped by
    [appendObserver] is never notified. *)
Theorem notify_calls_only_registered {Listener World : Type}
    (update : Listener -> cObserved Listener -> World -> bool * World)
    (cap ev : Z) (ps : list (option Listener)) (w : World) :
  0 <= cap <= 255 ->
  let o := registered cap ev ps in
  exists w' cs,
    notify update o w = Some (w', cs) /\
    (w', cs) = notify_slots update o (take (Z.to_nat cap) ps) 0 w /\
    forall c, c ∈ cs ->
      0 <= at_index c < cap /\
      ps !! Z.to_nat (at_index c) = Some (Some (callee c)).
Proof.
  intros Hcap o.
  pose proof (notify_loop_slots update cap Hcap o ps
                (take (Z.to_nat cap) ps) [] 256 w) as Hrun.
  change (Z.of_nat (length (@nil (option Listener)))) with 0 in Hrun.
  unfold notify. rewrite Hrun; cycle 1.
  { by apply ObservedFacts.after_registered. }
  { done. }
  { rewrite length_take. lia. }
  pose proof (notify_slots_log update o (take (Z.to_nat cap) ps) 0 w)
    as Hlog.
  destruct (notify_slots update o (take (Z.to_nat cap) ps) 0 w) as [w' cs].
  exists w', cs. split; [done|]. split; [done|].
  intros c Hc. destruct (Hlog c Hc) as (i & Hat & Hslot).
  apply lookup_take_Some in Hslot as [Hslot Hi].
  rewrite Hat. split; [lia|].
  by replace (Z.to_nat (0 + Z.of_nat i)) with i by lia.
Qed.

Lemma notify_calls_only_registered_witness :
  let ps := [Some 1; None; Some 3; Some 4; Some 5; Some 6; Some 2]%nat in
  let o := registered 6 0 ps in
  exists w' cs,
    notify sample_update o [] = Some (w', cs) /\
    (w', cs) = notify_slots sample_update o (take (Z.to_nat 6) ps) 0 [] /\
    forall c, c ∈ cs ->
      0 <= at_index c < 6 /\
      ps !! Z.to_nat (at_index c) = Some (Some (callee c)).
Proof.
  apply (notify_calls_only_registered sample_update 6 0
           [Some 1; None; Some 3; Some 4; Some 5; Some 6; Some 2]%nat []).
  lia.
Defined.

End NotifyFacts.

(** ** Interrupt dispatch *)

Module IrqDispatchFacts.
Import nSupport.

Section Dispatch.
Context {Handler : Type}.
Implicit Types (m : monitor Handler) (h : Handler) (pin : Z).

Lemma getISRPtr_in_range pin :
  0 <= pin < CIRQMONITORED_MAX -> getISRPtr pin = pin.
Proof.
  unfold getISRPtr, CIRQMONITORED_MAX. intros Hpin.
  destruct (Z.leb_spec 1 pin), (Z.leb_spec pin 23); simpl; lia.
Qed.

Lemma attach_cases m pin h mode :
  length (_handler m) = Z.to_nat CIRQMONITORED_MAX -> 0 <= pin ->
  attach pin h mode m = (false, m) \/
  (pin < CIRQMONITORED_MAX /\ handler_of pin m = None /\
   attach pin h mode m =
     (true,
      {| _handler := <[Z.to_nat pin := Some h]> (_handler m);
         armed := armed m ++ [(pin, getISRPtr pin, mode)] |})).
Proof.
  intros Hlen Hpin. unfold attach.
  destruct (Z.ltb_spec pin CIRQMONITORED_MAX) as [Hin|Hout]; [|by left].
  rewrite IrqMonitorFacts.slot_in_range by (done || lia).
  destruct (handler_of pin m) as [h'|]; [by left | by right].
Qed.

Lemma deattach_cases m pin :
  length (_handler m) = Z.to_nat CIRQMONITORED_MAX -> 0 <= pin ->
  deattach pin m = (false, m) \/
  (pin < CIRQMONITORED_MAX /\
   deattach pin m =
     (true,
      {| _handler := <[Z.to_nat pin := None]> (_handler m);
         armed := armed m |})).
Proof.
  intros Hlen Hpin. unfold deattach.
  destruct (Z.ltb_spec pin CIRQMONITORED_MAX) as [Hin|Hout]; [|by left].
  rewrite IrqMonitorFacts.slot_in_range by (done || lia).
  destruct (handler_of pin m) as [h'|]; [by right | by left].
Qed.

Lemma handler_of_insert m pin other slot :
  0 <= pin < CIRQMONITORED_MAX -> 0 <= other ->
  length (_handler m) = Z.to_nat CIRQMONITORED_MAX ->
  mjoin (<[Z.to_nat pin := slot]> (_handler m) !! Z.to_nat other)
  = if decide (other = pin) then slot else handler_of other m.
Proof.
  intros Hpin Hother Hlen. destruct (decide (other = pin)) as [->|Hne].
  - rewrite list_lookup_insert_eq; [done|]. lia.
  - rewrite list_lookup_insert_ne; [done|]. lia.
Qed.

(** What holds of the monitor at any time. *)
Lemma irq_run_invariant (ops : list (irq_op (Handler := Handler))) :
  Forall (fun op => 0 <= irq_pin op) ops ->
  length (_handler (irq_run ops)) = Z.to_nat CIRQMONITORED_MAX /\
  forall pin h, 0 <= pin -> handler_of pin (irq_run ops) = Some h ->
    pin < CIRQMONITORED_MAX /\
    exists mode, (pin, pin, mode) ∈ armed (irq_run ops).
Proof.
  unfold irq_run.
  induction ops as [|op ops IH] using rev_ind; intros Hpins.
  - split; [done|]. intros pin h Hpin Hh.
    unfold handler_of, monitor_init in Hh. cbn [_handler foldl] in Hh.
    destruct (replicate (Z.to_nat CIRQMONITORED_MAX) None !! Z.to_nat pin)
      as [slot|] eqn:Hslot; [|done].
    apply lookup_replicate_1 in Hslot as [-> _]. done.
  - apply Forall_app in Hpins as [Hpins Hop].
    rewrite Forall_singleton in Hop.
    destruct (IH Hpins) as [Hlen Harmed]. clear IH.
    rewrite foldl_app. simpl.
    set (m := foldl irq_step monitor_init ops) in *.
    destruct op as [pin0 h0 mode0|pin0]; simpl in Hop |- *.
    + destruct (attach_cases m pin0 h0 mode0 Hlen Hop)
        as [->|(Hin & Hfree & ->)]; [by split|].
      simpl. split; [by rewrite length_insert|].
      intros pin h Hpin Hh. unfold handler_of in Hh. simpl in Hh.
      rewrite handler_of_insert in Hh by (done || lia).
      destruct (decide (pin = pin0)) as [->|Hne].
      * split; [done|]. exists mode0.
        rewrite getISRPtr_in_range by lia.
        apply elem_of_app. right. constructor.
      * destruct (Harmed pin h Hpin Hh) as [Hlt [mode Hmode]].
        split; [done|]. exists mode. apply elem_of_app. by left.
    + destruct (deattach_cases m pin0 Hlen Hop) as [->|(Hin & ->)];
        [by split|].
      simpl. split; [by rewrite length_insert|].
      intros pin h Hpin Hh. unfold handler_of in Hh. simpl in Hh.
      rewrite handler_of_insert in Hh by (done || lia).
      destruct (decide (pin = pin0)) as [->|Hne]; [done|].
      by apply (Harmed pin h).
Qed.

End Dispatch.

(** X10.  After any sequence of [attach] and [deattach] calls, every
    handler in the table sits on a pin below 24 whose own trampoline has
    been handed to [attachInterrupt], and that trampoline calls exactly
    this handler's [isr] with the pin number. *)
Theorem attached_handlers_are_armed {Handler : Type}
    (ops : list (irq_op (Handler := Handler))) (pin : Z) (h : Handler) :
  Forall (fun op => 0 <= irq_pin op) ops -> 0 <= pin ->
  handler_of pin (irq_run ops) = Some h ->
  pin < CIRQMONITORED_MAX /\
  (exists mode, (pin, pin, mode) ∈ armed (irq_run ops)) /\
  pinISR pin (irq_run ops) = [(h, pin)].
Proof.
  intros Hops Hpin Hh.
  destruct (irq_run_invariant ops Hops) as [_ Harmed].
  destruct (Harmed pin h Hpin Hh) as [Hlt Hmode].
  split; [done|]. split; [done|]. unfold pinISR. by rewrite Hh.
Qed.

Lemma attached_handlers_are_armed_witness :
  let ops := [op_attach 5 1%nat ePINMODE_CHANGE; op_attach 7 2%nat
                ePINMODE_RISING; op_deattach 5; op_attach 30 3%nat
                ePINMODE_LOW] in
  7 < CIRQMONITORED_MAX /\
  (exists mode, (7, 7, mode) ∈ armed (irq_run ops)) /\
  pinISR 7 (irq_run ops) = [(2%nat, 7)].
Proof.
  apply (attached_handlers_are_armed
           [op_attach 5 1%nat ePINMODE_CHANGE; op_attach 7 2%nat
              ePINMODE_RISING; op_deattach 5; op_attach 30 3%nat
              ePINMODE_LOW] 7 2%nat).
  - repeat constructor; simpl; lia.
  - lia.
  - reflexivity.
Defined.

(** X11.  [deattach] never touches the interrupt controller: the list of
    armed interrupts is as before, and the pin's trampoline, should it
    still fire, calls nothing. *)
Theorem deattach_silences_but_keeps_armed {Handler : Type}
    (m : monitor Handler) (pin : Z) :
  length (_handler m) = Z.to_nat CIRQMONITORED_MAX -> 0 <= pin ->
  armed (deattach pin m).2 = armed m /\
  pinISR pin (deattach pin m).2 = [].
Proof.
  intros Hlen Hpin.
  destruct (IrqMonitorFacts.deattach_spec m pin Hlen Hpin)
    as (m' & Hd & _ & Hiff & Hclr & Hsame).
  destruct (deattach_cases m pin Hlen Hpin) as [Hno|(Hin & Hyes)].
  - rewrite Hno. simpl. split; [done|]. unfold pinISR.
    rewrite Hno in Hd. injection Hd as Hatt <-.
    destruct (handler_of pin m) as [h|] eqn:Hh; [|done].
    destruct (decide (pin < CIRQMONITORED_MAX)) as [Hlt|Hge].
    + assert (isAttached pin m = true) as Htrue
        by (apply Hiff; split; [done | eauto]).
      congruence.
    + unfold handler_of in Hh.
      rewrite lookup_ge_None_2 in Hh by lia. done.
  - rewrite Hyes. simpl. split; [done|]. unfold pinISR, handler_of. simpl.
    rewrite list_lookup_insert_eq; [done|]. lia.
Qed.

Lemma deattach_silences_but_keeps_armed_witness :
  let m := (attach 5 1%nat ePINMODE_CHANGE monitor_init).2 in
  armed (deattach 5 m).2 = armed m /\ pinISR 5 (deattach 5 m).2 = [].
Proof.
  apply (deattach_silences_but_keeps_armed
           (attach 5 1%nat ePINMODE_CHANGE monitor_init).2 5).
  - reflexivity.
  - lia.
Defined.

(** X12.  [testISR] runs the trampoline of its pin for pins 0 to 23; for
    any other pin number [getISRPtr] falls through to [pinISR0], so the
    handler of pin 0 is called, with 0 as argument. *)
Theorem testISR_dispatch {Handler : Type} (m : monitor Handler) (pin : Z) :
  0 <= pin ->
  testISR pin m
  = if pin <? CIRQMONITORED_MAX then pinISR pin m else pinISR 0 m.
Proof.
  intros Hpin. unfold testISR.
  destruct (Z.ltb_spec pin CIRQMONITORED_MAX) as [Hin|Hout].
  - by rewrite getISRPtr_in_range.
  - unfold getISRPtr, CIRQMONITORED_MAX in *.
    destruct (Z.leb_spec 1 pin), (Z.leb_spec pin 23); simpl; done || lia.
Qed.

Lemma testISR_dispatch_witness :
  testISR 30 (attach 0 1%nat ePINMODE_CHANGE monitor_init).2
  = if 30 <? CIRQMONITORED_MAX
    then pinISR 30 (attach 0 1%nat ePINMODE_CHANGE monitor_init).2
    else pinISR 0 (attach 0 1%nat ePINMODE_CHANGE monitor_init).2.
Proof.
  apply (testISR_dispatch (attach 0 1%nat ePINMODE_CHANGE monitor_init).2 30).
  lia.
Defined.

End IrqDispatchFacts.

(** ** Writing lines out *)

Module WriteFacts.
Import nText.

(** The write loop of the transmit task sends the characters
    [pscLine[i .. l-1]]. *)
Lemma cUARTTX_write_loop_spec fuel (pscLine : cmem) l i :
  0 <= i <= l -> l <= 255 -> (Z.to_nat (l - i) < fuel)%nat ->
  cUARTTX_write_loop fuel pscLine l i = Some (chars_at pscLine i (l - i)).
Proof.
  revert i. induction fuel as [|k IH]; intros i Hi Hl Hfuel; [lia|].
  simpl. destruct (Z.ltb_spec i l) as [Hlt|Hge].
  - rewrite uint8_small by lia. rewrite IH by lia.
    rewrite (StringHelperFacts.chars_at_cons pscLine i (l - i)) by lia.
    do 3 f_equal. lia.
  - replace (l - i) with 0 by lia. done.
Qed.

(** X13.  A line stored by [setLine] (or a constructor) from [L] source
    characters and then written out by the transmit task puts exactly the
    first [min(L, N-1)] source characters on the serial port: never the
    terminator, never more than [N-1] characters. *)
Theorem transmit_writes_stored_characters N x pcsData L :
  1 <= N -> 0 <= L <= 255 ->
  exists x',
    setLine N x pcsData L = Some x' /\
    cUARTTX_write x' = Some (chars_at pcsData 0 (Z.min L (N - 1))).
Proof.
  intros HN HL.
  destruct (TextLineFacts.setLine_length N x pcsData L HN HL)
    as (x' & Hset & Hlen).
  destruct (TextLineFacts.setLine_content N x pcsData L HN HL)
    as (x'' & Hset' & Hchars).
  rewrite Hset in Hset'. injection Hset' as <-.
  exists x'. split; [exact Hset|].
  unfold cUARTTX_write. rewrite Hlen.
  rewrite cUARTTX_write_loop_spec by lia.
  rewrite Z.sub_0_r. f_equal.
  apply StringHelperFacts.chars_at_ext. intros k Hk. apply Hchars. lia.
Qed.

Lemma transmit_writes_stored_characters_witness :
  exists x',
    setLine 4 (raw_line 85 0) (cstr [67; 104; 97; 110; 103; 101]) 6
      = Some x' /\
    cUARTTX_write x'
      = Some (chars_at (cstr [67; 104; 97; 110; 103; 101]) 0
                (Z.min 6 (4 - 1))).
Proof.
  apply (transmit_writes_stored_characters 4 (raw_line 85 0)
           (cstr [67; 104; 97; 110; 103; 101]) 6); lia.
Defined.

Lemma blockingWriteLine_loop_unsigned_wraps N (p : cmem) fuel i :
  256 <= N -> (forall k, 0 <= k <= 255 -> p k <> NUL) -> 0 <= i <= 255 ->
  exists out,
    blockingWriteLine_loop N ARM fuel p i = Running out /\
    length out = fuel.
Proof.
  intros HN Hp. revert i. induction fuel as [|f IH]; intros i Hi.
  - by exists [].
  - simpl. pose proof (Z.mod_pos_bound (i + 1) 256) as Hm.
    destruct (Z.eqb_spec (p i) NUL) as [Hz|_]; [by apply Hp in Hz|].
    destruct (Z.leb_spec N ((i + 1) mod 256)) as [?|_]; [lia|].
    destruct (IH ((i + 1) mod 256)) as (out & -> & Hlen); [lia|].
    exists (p i :: out). split; [done | simpl; lia].
Qed.

(** X14.  Where plain [char] is unsigned and [N >= 256], a source whose
    first 256 bytes hold no terminator makes [blockingWriteLine] run for
    ever: the counter wraps to 0 before it reaches [N], and every round
    writes one more character. *)
Theorem blockingWriteLine_unsigned_never_returns N (p : cmem) fuel :
  256 <= N -> (forall k, 0 <= k <= 255 -> p k <> NUL) ->
  exists out,
    blockingWriteLine N ARM fuel p = Running out /\ length out = fuel.
Proof.
  intros HN Hp. apply blockingWriteLine_loop_unsigned_wraps; [done | done | lia].
Qed.

Lemma blockingWriteLine_unsigned_never_returns_witness :
  exists out,
    blockingWriteLine 300 ARM 1000 (fun _ => 65) = Running out /\
    length out = 1000%nat.
Proof.
  apply (blockingWriteLine_unsigned_never_returns 300 (fun _ => 65) 1000).
  - lia.
  - intros k Hk. discriminate.
Defined.

Lemma blockingWriteLine_loop_signed_wraps N (p : cmem) fuel i :
  129 <= N <= 65408 -> (forall k, 0 <= k <= 127 -> p k <> NUL) ->
  0 <= i <= 127 -> (Z.to_nat (127 - i) < fuel)%nat ->
  blockingWriteLine_loop N AVR fuel p i = Finished (chars_at p i (128 - i)).
Proof.
  intros HN Hp. revert i. induction fuel as [|f IH]; intros i Hi Hfuel; [lia|].
  cbn [blockingWriteLine_loop to_char char_ge].
  destruct (Z.eqb_spec (p i) NUL) as [Hz|_]; [by apply Hp in Hz|].
  rewrite (StringHelperFacts.chars_at_cons p i (128 - i)) by lia.
  destruct (decide (i = 127)) as [->|Hne].
  - change (((127 + 1 + 128) mod 256 - 128) mod 65536) with 65408.
    destruct (Z.leb_spec N 65408) as [_|?]; [done | lia].
  - rewrite (Z.mod_small (i + 1 + 128)) by lia.
    replace (i + 1 + 128 - 128) with (i + 1) by lia.
    rewrite (Z.mod_small (i + 1)) by lia.
    destruct (Z.leb_spec N (i + 1)) as [?|_]; [lia|].
    rewrite IH by lia. do 3 f_equal. lia.
Qed.

(** X15.  Where plain [char] is signed and [int] has 16 bits, and
    [128 < N <= 65408], a source of 128 or more characters is cut after
    128 of them: the counter turns negative, compares as a large unsigned
    number and ends the loop short of [N]. *)
Theorem blockingWriteLine_signed_stops_at_128 N (p : cmem) fuel :
  129 <= N <= 65408 -> (forall k, 0 <= k <= 127 -> p k <> NUL) ->
  (128 <= fuel)%nat ->
  blockingWriteLine N AVR fuel p = Finished (chars_at p 0 128).
Proof.
  intros HN Hp Hfuel. unfold blockingWriteLine.
  rewrite (blockingWriteLine_loop_signed_wraps N p fuel 0) by (done || lia).
  done.
Qed.

Lemma blockingWriteLine_signed_stops_at_128_witness :
  blockingWriteLine 200 AVR 128 (fun _ => 65)
  = Finished (chars_at (fun _ => 65) 0 128).
Proof.
  apply (blockingWriteLine_signed_stops_at_128 200 (fun _ => 65) 128).
  - lia.
  - intros k Hk. discriminate.
  - lia.
Defined.

End WriteFacts.

(** ** Joining the transmit task *)

Module JoinFacts.
Import nFRTOSPeripheral.

(** X16.  Once a [join] of the transmit task has left a valid task
    handle, every later [join], whatever its arguments and whatever the
    kernel could grant, gives the same answer, changes nothing and asks
    the kernel for nothing.  In particular a queue whose creation failed
    in that first [join] is never created: [join] keeps returning false. *)
Theorem join_is_settled_by_the_task u priority stackSize k r u1 k1
    priority' stackSize' k' :
  cUARTTX_join u priority stackSize k = (r, u1, k1) ->
  cTask_isValidHandle (tx_task u1) = true ->
  cUARTTX_join u1 priority' stackSize' k' = (r, u1, k').
Proof.
  intros Hjoin Hvalid.
  assert (r = cTask_isValidHandle (tx_task u1)
              && cQueue_isValidHandle (_xTxQueue u1)) as ->.
  { unfold cUARTTX_join in Hjoin.
    destruct (negb (cTask_isValidHandle (tx_task u))).
    - destruct (start _ _ _ _) as [t k2].
      destruct (create _ _) as [[b q] k3].
      by injection Hjoin as <- <- <-.
    - by injection Hjoin as <- <- <-. }
  unfold cUARTTX_join. by rewrite Hvalid.
Qed.

Lemma join_is_settled_by_the_task_witness :
  let u1 := {| tx_task := {| _xTHandle := 7; _bRunning := false |};
               _xTxQueue := {| nFRTOS._xSize := 4; nFRTOS._xQHandle := 0 |} |}
  in
  cUARTTX_join u1 2 1024 {| grants := [9]; requests := [] |}
  = (false, u1, {| grants := [9]; requests := [] |}).
Proof.
  apply (join_is_settled_by_the_task
           {| tx_task := {| _xTHandle := 0; _bRunning := false |};
              _xTxQueue := {| nFRTOS._xSize := 4; nFRTOS._xQHandle := 0 |} |}
           1 512 {| grants := [7; 0; 9]; requests := [] |} false
           {| tx_task := {| _xTHandle := 7; _bRunning := false |};
              _xTxQueue := {| nFRTOS._xSize := 4; nFRTOS._xQHandle := 0 |} |}
           {| grants := [9];
              requests := [task_request 1 512; queue_request 4] |}
           2 1024 {| grants := [9]; requests := [] |}).
  - reflexivity.
  - reflexivity.
Defined.

End JoinFacts.
